(** * FlowER: conditional flow matching ([src/model/flow_matching.py])

    A shallow embedding of [zero_center_func] and of the methods of
    [ConditionalFlowMatcher], together with the small part of the tensor
    runtime they call (broadcasting, indexing, [vmap], [masked_fill]).

    Conventions of the embedding.
    - Tensor entries are exact: a finite entry is a rational, and the three
      non-finite IEEE values are kept so that a division by a zero mask sum
      produces what it produces in the tensor runtime.  Rounding, overflow
      and the sign of zero are not modelled.
    - A tensor is a shape and an entry function on multi-indices; only the
      entries at indices inside the shape are meaningful.
    - An operation that the runtime rejects returns [Err].
    - The draw of [torch.randn] is an explicit argument: a function giving
      the (finite) sample at each index.
    - Axis layout is the one the code uses: [vmap] maps over axis 0 (the
      batch), [transpose(1, 2)] exchanges the two node axes, and the last
      axis of a rank-4 matrix is the feature axis. *)

From Stdlib Require Import String.
From Stdlib Require Import List Arith Lia Bool.
From Stdlib Require Import QArith Qround Lqa.
Import ListNotations.

Set Implicit Arguments.

(* ================================================================== *)
(** ** Entries *)

Module Float.

Inductive fl : Type :=
| Fin (q : Q)
| PInf
| NInf
| NaN.

Definition of_bool (b : bool) : fl := Fin (if b then 1 else 0).

Definition fopp (a : fl) : fl :=
  match a with
  | Fin p => Fin (- p)
  | PInf => NInf
  | NInf => PInf
  | NaN => NaN
  end.

Definition fadd (a b : fl) : fl :=
  match a, b with
  | Fin p, Fin q => Fin (p + q)
  | NaN, _ | _, NaN => NaN
  | PInf, NInf | NInf, PInf => NaN
  | PInf, _ | _, PInf => PInf
  | NInf, _ | _, NInf => NInf
  end.

Definition fsub (a b : fl) : fl := fadd a (fopp b).

(** Sign of a rational as a comparison with zero. *)
Definition qsign (q : Q) : comparison := q ?= 0.

(** An infinity of sign [pos] scaled by a finite [q]. *)
Definition inf_scaled (pos : bool) (q : Q) : fl :=
  match qsign q with
  | Eq => NaN
  | Gt => if pos then PInf else NInf
  | Lt => if pos then NInf else PInf
  end.

Definition fmul (a b : fl) : fl :=
  match a, b with
  | Fin p, Fin q => Fin (p * q)
  | NaN, _ | _, NaN => NaN
  | PInf, Fin q | Fin q, PInf => inf_scaled true q
  | NInf, Fin q | Fin q, NInf => inf_scaled false q
  | PInf, PInf | NInf, NInf => PInf
  | PInf, NInf | NInf, PInf => NInf
  end.

(** Division; a zero divisor is the positive zero an integer count
    converts to. *)
Definition fdiv (a b : fl) : fl :=
  match a, b with
  | Fin p, Fin q =>
      if Qeq_bool q 0
      then match qsign p with Eq => NaN | Gt => PInf | Lt => NInf end
      else Fin (p / q)
  | NaN, _ | _, NaN => NaN
  | Fin _, _ => Fin 0
  | PInf, Fin q => if Qle_bool 0 q then PInf else NInf
  | NInf, Fin q => if Qle_bool 0 q then NInf else PInf
  | _, _ => NaN
  end.

(** The comparison [==] of the runtime: false whenever a NaN is involved. *)
Definition feqb (a b : fl) : bool :=
  match a, b with
  | Fin p, Fin q => Qeq_bool p q
  | PInf, PInf | NInf, NInf => true
  | _, _ => false
  end.

(** The comparison [!=]. *)
Definition fneb (a b : fl) : bool := negb (feqb a b).

(** Truth value of an entry ([.bool()]): anything but zero. *)
Definition truthy (a : fl) : bool := fneb a (Fin 0).

(** Conversion to an integer entry ([.long()]): truncation toward zero.
    The runtime leaves the conversion of a non-finite value unspecified;
    it is kept as it is here. *)
Definition trunc (a : fl) : fl :=
  match a with
  | Fin q => Fin (inject_Z (if Qle_bool 0 q then Qfloor q else Qceiling q))
  | _ => a
  end.

Definition is_fin (a : fl) : bool :=
  match a with Fin _ => true | _ => false end.

(** The rational carried by a finite entry (0 for the others). *)
Definition qv (a : fl) : Q :=
  match a with Fin q => q | _ => 0 end.

(** Sum of a list of entries. *)
Definition fsum (l : list fl) : fl := fold_right fadd (Fin 0) l.

(** Equality of entries as the runtime sees it, as a proposition. *)
Definition feq (a b : fl) : Prop := feqb a b = true.

End Float.
Export Float.

Close Scope Q_scope.

(* ================================================================== *)
(** ** Results of operations that may be rejected *)

Inductive error : Type :=
| ShapeError   (* operands that cannot be broadcast together / mapped *)
| IndexError   (* an index or an axis outside the tensor *)
| DeviceError. (* a device the runtime does not know *)

Inductive result (A : Type) : Type :=
| Ok (a : A)
| Err (e : error).
Arguments Err {A} e.

Definition bind {A B} (r : result A) (k : A -> result B) : result B :=
  match r with
  | Ok a => k a
  | Err e => Err e
  end.

Notation "x <- r ;; k" := (bind r (fun x => k))
  (at level 61, r at next level, right associativity).

Definition is_ok {A} (r : result A) : bool :=
  match r with Ok _ => true | Err _ => false end.

(* ================================================================== *)
(** ** Tensors *)

Module Torch.

Record tensor : Type := mkT {
  shape : list nat;
  elem : list nat -> fl
}.

(** Rank ([.dim()]). *)
Definition ndim (t : tensor) : nat := length (shape t).

(** All the multi-indices of a shape, in row-major order. *)
Fixpoint indices (s : list nat) : list (list nat) :=
  match s with
  | [] => [[]]
  | n :: s' => flat_map (fun i => map (cons i) (indices s')) (seq 0 n)
  end.

Definition numel (s : list nat) : nat := length (indices s).

(** An index lies inside a shape. *)
Definition in_range (s idx : list nat) : Prop := Forall2 lt idx s.

(** *** Broadcasting *)

(** Two sizes on one axis are compatible when equal or when one is 1. *)
Definition bdim (a b : nat) : result nat :=
  if a =? b then Ok a
  else if a =? 1 then Ok b
  else if b =? 1 then Ok a
  else Err ShapeError.

(** Shapes are aligned on their last axis: this works on reversed shapes. *)
Fixpoint bcast_rev (s1 s2 : list nat) : result (list nat) :=
  match s1, s2 with
  | [], _ => Ok s2
  | _, [] => Ok s1
  | a :: r1, b :: r2 =>
      d <- bdim a b ;;
      r <- bcast_rev r1 r2 ;;
      Ok (d :: r)
  end.

Definition broadcast_shapes (s1 s2 : list nat) : result (list nat) :=
  r <- bcast_rev (rev s1) (rev s2) ;; Ok (rev r).

(** Where an index of the broadcast shape reads in an operand of shape
    [s]: the leading axes the operand lacks are dropped, and an axis of
    size 1 is read at 0. *)
Definition pdim (d i : nat) : nat := if d =? 1 then 0 else i.

Fixpoint proj_rev (s idx : list nat) : list nat :=
  match s, idx with
  | d :: s', i :: idx' => pdim d i :: proj_rev s' idx'
  | _, _ => []
  end.

Definition expand_index (s idx : list nat) : list nat :=
  rev (proj_rev (rev s) (rev idx)).

(** Elementwise binary operation with broadcasting. *)
Definition binop (f : fl -> fl -> fl) (a b : tensor) : result tensor :=
  s <- broadcast_shapes (shape a) (shape b) ;;
  Ok (mkT s (fun idx =>
        f (elem a (expand_index (shape a) idx))
          (elem b (expand_index (shape b) idx)))).

Definition tadd := binop fadd.
Definition tsub := binop fsub.
Definition tmul := binop fmul.
Definition tdiv := binop fdiv.

(** Elementwise unary operation. *)
Definition tmap (f : fl -> fl) (a : tensor) : tensor :=
  mkT (shape a) (fun idx => f (elem a idx)).

Definition tneg : tensor -> tensor := tmap fopp.

(** A 0-dimensional tensor. *)
Definition scalar (v : fl) : tensor := mkT [] (fun _ => v).

(** [torch.sum(x)] / [x.sum()]: the sum of all entries, 0-dimensional. *)
Definition tsum (a : tensor) : tensor :=
  scalar (fsum (map (elem a) (indices (shape a)))).

(** The value of a 0-dimensional tensor. *)
Definition item (a : tensor) : fl := elem a [].

(** *** Indexing and views *)

Fixpoint remove_at {A} (k : nat) (l : list A) : list A :=
  match k, l with
  | _, [] => []
  | O, _ :: l' => l'
  | S k', x :: l' => x :: remove_at k' l'
  end.

Fixpoint insert_at {A} (k : nat) (x : A) (l : list A) : list A :=
  match k, l with
  | O, _ => x :: l
  | S k', y :: l' => y :: insert_at k' x l'
  | S _, [] => [x]
  end.

(** [t.select(axis, i)]; [matrix[:, :, 0]] is [select 2 0 matrix]. *)
Definition select (axis i : nat) (t : tensor) : result tensor :=
  match nth_error (shape t) axis with
  | None => Err IndexError
  | Some d =>
      if i <? d
      then Ok (mkT (remove_at axis (shape t))
                   (fun idx => elem t (insert_at axis i idx)))
      else Err IndexError
  end.

(** [t.unsqueeze(k)]. *)
Definition unsqueeze (k : nat) (t : tensor) : result tensor :=
  if k <=? ndim t
  then Ok (mkT (insert_at k 1 (shape t))
               (fun idx => elem t (remove_at k idx)))
  else Err IndexError.

(** Exchange of the entries at positions [i] and [j] of a list. *)
Definition swap_at (i j : nat) (l : list nat) : list nat :=
  map (fun k => nth (if k =? i then j else if k =? j then i else k) l 0)
      (seq 0 (length l)).

(** [t.transpose(i, j)]. *)
Definition transpose (i j : nat) (t : tensor) : result tensor :=
  if (i <? ndim t) && (j <? ndim t)
  then Ok (mkT (swap_at i j (shape t))
               (fun idx => elem t (swap_at i j idx)))
  else Err IndexError.

(** [t.reshape(-1, 1, ..., 1)] with [ones] trailing axes of size 1: the
    entries of [t] in row-major order along the first axis. *)
Definition reshape_column (ones : nat) (t : tensor) : tensor :=
  mkT (numel (shape t) :: repeat 1 ones)
      (fun idx => elem t (nth (hd 0 idx) (indices (shape t)) [])).

(** Sample [b] along axis 0. *)
Definition unbind0 (b : nat) (t : tensor) : tensor :=
  mkT (tl (shape t)) (fun idx => elem t (b :: idx)).

(** [torch.vmap(f)(x, y)]: [f] applied to each pair of samples along
    axis 0, the results stacked along axis 0.  Whether [f] is rejected
    depends on the shapes of the samples only, which are the same for
    every sample; the shape of the result is read on sample 0.  A batch
    without any sample is rejected with an index error: the runtime runs
    [f] once on the whole batch and the function mapped here reads batch
    element 0 on the way. *)
Definition vmap2 (f : tensor -> tensor -> result tensor)
    (x y : tensor) : result tensor :=
  match shape x, shape y with
  | bx :: _, bY :: _ =>
      if bx =? bY then
        if bx =? 0 then Err IndexError else
        r0 <- f (unbind0 0 x) (unbind0 0 y) ;;
        Ok (mkT (bx :: shape r0)
                (fun idx =>
                   match idx with
                   | [] => NaN
                   | b :: idx' =>
                       match f (unbind0 b x) (unbind0 b y) with
                       | Ok r => elem r idx'
                       | Err _ => NaN
                       end
                   end))
      else Err ShapeError
  | _, _ => Err ShapeError
  end.

(** *** Masks *)

(** [t != v] for a number [v]: a 0/1 tensor. *)
Definition ne_scalar (v : fl) (t : tensor) : tensor :=
  tmap (fun a => of_bool (fneb a v)) t.

(** [t.long()]. *)
Definition long (t : tensor) : tensor := tmap trunc t.

(** [t.bool()]. *)
Definition to_bool (t : tensor) : tensor :=
  tmap (fun a => of_bool (truthy a)) t.

(** [~t] on a boolean tensor. *)
Definition logical_not (t : tensor) : tensor :=
  tmap (fun a => of_bool (negb (truthy a))) t.

(** [t.masked_fill(mask, v)]: [v] where the mask holds, [t] elsewhere;
    the two tensors are broadcast together. *)
Definition masked_fill (t mask : tensor) (v : fl) : result tensor :=
  binop (fun a m => if truthy m then v else a) t mask.

(** [torch.randn(size)], the sample at each index given by [draw]. *)
Definition randn (size : list nat) (draw : list nat -> Q) : tensor :=
  mkT size (fun idx => Fin (draw idx)).

(** [t.to(device)]; [available] tells which devices the runtime knows. *)
Definition to_device (available : String.string -> bool) (device : String.string)
    (t : tensor) : result tensor :=
  if available device then Ok t else Err DeviceError.

End Torch.
Export Torch.

(* ================================================================== *)
(** ** The program *)

(** The configuration object handed to the constructor. *)
Module Config.
Record args : Type := mk {
  device : String.string;
  sigma : Q;
  emb_dim : Z
}.
End Config.

Module FlowMatching.

(** The fill constant [1e-19] of [zero_centered_noise]. *)
Definition fill_value : Q := (1 # 10000000000000000000)%Q.

(** [zero_center_func(x, node_mask)]. *)
Definition zero_center_func (x node_mask : tensor) : result tensor :=
  let N := tsum node_mask in
  mean <- tdiv (tsum x) N ;;
  shift <- tmul mean node_mask ;;
  tsub x shift.

(** The state of a [ConditionalFlowMatcher]. *)
Record ConditionalFlowMatcher : Type := mkCFM {
  args : Config.args;
  device : String.string;
  sigma : Q;
  dim : Z
}.

(** [ConditionalFlowMatcher.__init__(self, args)]. *)
Definition __init__ (a : Config.args) : result ConditionalFlowMatcher :=
  Ok {| args := a;
        device := Config.device a;
        sigma := Config.sigma a;
        dim := Config.emb_dim a |}.

Section Methods.

(** [MATRIX_PAD] of [utils.data_utils], which is not part of the sources
    at hand: any number. *)
Variable MATRIX_PAD : Q.

(** The devices the runtime knows. *)
Variable device_available : String.string -> bool.

Variable self : ConditionalFlowMatcher.

(** [zero_centered_noise(self, size, node_mask_batch)]; [draw] is the
    sample [torch.randn] returns. *)
Definition zero_centered_noise (draw : list nat -> Q) (size : list nat)
    (node_mask_batch : tensor) : result tensor :=
  rand <- to_device device_available (device self) (randn size draw) ;;
  x_batch <- tmul rand node_mask_batch ;;
  centered <- vmap2 zero_center_func x_batch node_mask_batch ;;
  masked_fill centered (logical_not (to_bool node_mask_batch))
              (Fin fill_value).

(** [sample_be_matrix(self, matrix)]. *)
Definition sample_be_matrix (draw : list nat -> Q) (matrix : tensor)
    : result tensor :=
  column0 <- select 2 0 matrix ;;
  let node_mask := ne_scalar (Fin MATRIX_PAD) column0 in
  row_mask <- unsqueeze 1 node_mask ;;
  col_mask <- unsqueeze 2 node_mask ;;
  pair_mask <- tmul row_mask col_mask ;;
  let masks := long pair_mask in
  noise <- zero_centered_noise draw (shape masks) masks ;;
  noise_t <- transpose 1 2 noise ;;
  both <- tadd noise noise_t ;;
  let noise := tmap (fmul (Fin (1 # 2)%Q)) both in
  let scaled := tmap (fun v => fmul v (Fin (sigma self))) noise in
  tadd matrix scaled.

(** [sample_conditional_pt(self, x0, x1, t)]. *)
Definition sample_conditional_pt (draw : list nat -> Q)
    (x0 x1 t : tensor) : result tensor :=
  let t := reshape_column (ndim x0 - 1) t in
  near <- tmul t x1 ;;
  far <- tmul (tmap (fsub (Fin 1%Q)) t) x0 ;;
  mu_t <- tadd near far ;;
  sample_be_matrix draw mu_t.

(** [compute_conditional_vector_field(self, x0, x1)]. *)
Definition compute_conditional_vector_field (x0 x1 : tensor)
    : result tensor :=
  tsub x1 x0.

End Methods.

End FlowMatching.
Export FlowMatching.

(** Entry of a result at an index ([NaN] when the call was rejected),
    for evaluating the program on concrete inputs. *)
Definition entry (r : result tensor) (idx : list nat) : fl :=
  match r with Ok t => elem t idx | Err _ => NaN end.

Definition shape_of (r : result tensor) : list nat :=
  match r with Ok t => shape t | Err _ => [] end.

(** A rank-4 tensor from nested lists (missing entries read as 0). *)
Definition of_lists (l : list (list (list (list Q)))) : tensor :=
  mkT [length l;
       length (hd [] l);
       length (hd [] (hd [] l));
       length (hd [] (hd [] (hd [] l)))]
      (fun idx =>
         match idx with
         | [b; i; j; d] => Fin (nth d (nth j (nth i (nth b l []) []) []) 0%Q)
         | _ => NaN
         end).

(** A rank-1 tensor from a list. *)
Definition of_list (l : list Q) : tensor :=
  mkT [length l] (fun idx => Fin (nth (hd 0 idx) l 0%Q)).

(** Sum of a list of rationals. *)
Definition qsum (l : list Q) : Q := fold_right Qplus 0%Q l.

(** *** Conditions on inputs, as checks that can be run *)

(** Every entry inside the shape passes [p]. *)
Definition all_entries (p : fl -> bool) (t : tensor) : bool :=
  forallb (fun idx => p (elem t idx)) (indices (shape t)).

(** No entry is NaN or infinite. *)
Definition finite (t : tensor) : bool := all_entries is_fin t.

(** A 0/1-valued tensor. *)
Definition bit (v : fl) : bool := feqb v (Fin 0%Q) || feqb v (Fin 1%Q).
Definition is_mask (t : tensor) : bool := all_entries bit t.

(** [x] is zero wherever [m] is. *)
Definition zero_off_mask (m x : tensor) : bool :=
  forallb (fun idx => negb (feqb (elem m idx) (Fin 0%Q))
                      || feqb (elem x idx) (Fin 0%Q))
          (indices (shape m)).

(** The rational entries of a tensor, listed in row-major order. *)
Definition qentries (t : tensor) : list Q :=
  map (fun idx => qv (elem t idx)) (indices (shape t)).

(** The entries of [t] weighted by the mask [m] and summed. *)
Definition masked_total (m t : tensor) : result fl :=
  weighted <- tmul t m ;; Ok (item (tsum weighted)).

(** *** Per-sample totals of masked noise *)

(** Sum of the entries of the mask of sample [b]. *)
Definition mask_count (M : tensor) (b : nat) : Q :=
  qsum (map (fun i => qv (elem M (b :: i))) (indices (tl (shape M)))).

(** Sum over sample [b] of the draw weighted by the mask. *)
Definition masked_draw_total (draw : list nat -> Q) (M : tensor)
    (b : nat) : Q :=
  qsum (map (fun i => (draw (b :: i) * qv (elem M (b :: i)))%Q)
            (indices (tl (shape M)))).

(** The same two totals as the runtime computes them. *)
Definition sample_mask_sum (M : tensor) (b : nat) : fl :=
  item (tsum (unbind0 b M)).

Definition sample_noise_sum (draw : list nat -> Q) (M : tensor)
    (b : nat) : fl :=
  fsum (map (fun i => fmul (Fin (draw (b :: i))) (elem M (b :: i)))
            (indices (tl (shape M)))).

(** Every entry of [t] is the number [c]. *)
Definition constant (c : Q) (t : tensor) : bool :=
  all_entries (fun v => feqb v (Fin c)) t.

(** The exchange of the two node axes leaves every entry unchanged. *)
Definition symmetric (t : tensor) : bool :=
  forallb (fun idx => feqb (elem t idx) (elem t (swap_at 1 2 idx)))
          (indices (shape t)).

(** *** Validity of nodes and node pairs in a padded rank-4 matrix *)

(** Node [i] of sample [b] is real in feature channel [d]: the entry of
    its row in column 0 differs from the pad. *)
Definition node_valid (pad : Q) (matrix : tensor) (b i d : nat) : bool :=
  fneb (elem matrix [b; i; 0; d]) (Fin pad).

Definition pair_valid (pad : Q) (matrix : tensor) (b i j d : nat) : bool :=
  node_valid pad matrix b j d && node_valid pad matrix b i d.

(** Weight 1 at the valid node pairs of a padded matrix, 0 elsewhere. *)
Definition pair_weight (pad : Q) (matrix : tensor) (idx : list nat) : Q :=
  match idx with
  | [b; i; j; d] => if pair_valid pad matrix b i j d then 1%Q else 0%Q
  | _ => 0%Q
  end.

(** Number of valid node pairs (over all feature channels) of sample
    [b], and the sum of the draw over them. *)
Definition valid_count (pad : Q) (matrix : tensor) (b : nat) : Q :=
  qsum (map (fun idx => pair_weight pad matrix (b :: idx))
            (indices (tl (shape matrix)))).

Definition valid_draw_total (pad : Q) (matrix : tensor)
    (draw : list nat -> Q) (b : nat) : Q :=
  qsum (map (fun idx => (draw (b :: idx)
                         * pair_weight pad matrix (b :: idx))%Q)
            (indices (tl (shape matrix)))).

(** Sum of the entries of sample [b] of [t] over the node pairs that are
    valid in [matrix]. *)
Definition valid_total (pad : Q) (matrix t : tensor) (b : nat) : Q :=
  qsum (map (fun idx => (pair_weight pad matrix (b :: idx)
                         * qv (elem t (b :: idx)))%Q)
            (indices (tl (shape matrix)))).

(** *** Small concrete inputs *)

Module Samples.

(** One sample of two positions, the second masked out. *)
Definition ones2 : tensor := of_list [1%Q; 1%Q].
Definition mask10 : tensor := of_list [1%Q; 0%Q].

(** A tensor that is zero where [mask10] is. *)
Definition masked2 : tensor := of_list [3%Q; 0%Q].

(** A runtime that knows the device cpu only, and a matcher on it. *)
Definition cpu_only (d : string) : bool := String.eqb d "cpu".
Definition config : Config.args := Config.mk "cpu" (1 # 2)%Q 4%Z.
Definition matcher : ConditionalFlowMatcher :=
  mkCFM config "cpu" (1 # 2)%Q 4%Z.

(** The pad value used in the examples. *)
Definition pad : Q := (-30 # 1)%Q.

(** A draw: the sample at an index is the weighted sum of its
    components, minus 2. *)
Definition draw (idx : list nat) : Q :=
  Qminus
    (inject_Z (Z.of_nat (nth 0 idx 0 + 3 * nth 1 idx 0 + 5 * nth 2 idx 0
                         + 7 * nth 3 idx 0)))
    2%Q.

(** Batch of two samples of two nodes, one feature; every position of
    the first sample is valid and none of the second. *)
Definition mask_full_empty : tensor :=
  of_lists [ [ [[1%Q]; [1%Q]]; [[1%Q]; [1%Q]] ];
             [ [[0%Q]; [0%Q]]; [[0%Q]; [0%Q]] ] ].

(** One sample of two nodes, the second one padding; symmetric. *)
Definition padded2 : tensor :=
  of_lists [ [ [[1%Q]; [pad]]; [[pad]; [pad]] ] ].

(** One sample of two real nodes; not symmetric. *)
Definition skew2 : tensor :=
  of_lists [ [ [[1%Q]; [5%Q]]; [[2%Q]; [3%Q]] ] ].

(** The same matcher with noise scale 0. *)
Definition matcher0 : ConditionalFlowMatcher :=
  mkCFM (Config.mk "cpu" 0%Q 4%Z) "cpu" 0%Q 4%Z.

(** Two batches of two samples of two nodes; in [batch_a] the second
    node of the second sample is padding, and every node of the second
    sample of [batch_pad] is. *)
Definition batch_a : tensor :=
  of_lists [ [ [[1%Q]; [2%Q]]; [[2%Q]; [3%Q]] ];
             [ [[0%Q]; [pad]]; [[pad]; [pad]] ] ].
Definition batch_b : tensor :=
  of_lists [ [ [[4%Q]; [0%Q]]; [[0%Q]; [7%Q]] ];
             [ [[6%Q]; [pad]]; [[pad]; [pad]] ] ].
Definition batch_pad : tensor :=
  of_lists [ [ [[1%Q]; [2%Q]]; [[2%Q]; [3%Q]] ];
             [ [[pad]; [pad]]; [[pad]; [pad]] ] ].

(** Time vectors. *)
Definition t_zeros : tensor := of_list [0%Q; 0%Q].
Definition t_ones : tensor := of_list [1%Q; 1%Q].
Definition t_half : tensor := of_list [(1 # 2)%Q].

(** One sample of two nodes, all zeros and all ones. *)
Definition all_zero : tensor :=
  of_lists [ [ [[0%Q]; [0%Q]]; [[0%Q]; [0%Q]] ] ].
Definition all_one : tensor :=
  of_lists [ [ [[1%Q]; [1%Q]]; [[1%Q]; [1%Q]] ] ].

(** A configuration with a negative noise scale and a device the
    runtime [cpu_only] does not know. *)
Definition bad_config : Config.args := Config.mk "tpu9" (-1 # 1)%Q 4%Z.

(** One sample of two real nodes; symmetric. *)
Definition sym2 : tensor :=
  of_lists [ [ [[1%Q]; [5%Q]]; [[5%Q]; [3%Q]] ] ].

(** A mask of two positions that leaves both out. *)
Definition mask00 : tensor := of_list [0%Q; 0%Q].

(** A mask that agrees with [mask_full_empty] on the first sample and
    has one valid position in the second. *)
Definition mask_full_one : tensor :=
  of_lists [ [ [[1%Q]; [1%Q]]; [[1%Q]; [1%Q]] ];
             [ [[1%Q]; [0%Q]]; [[0%Q]; [0%Q]] ] ].

(** A draw that agrees with [draw] on the first sample only. *)
Definition draw_first (idx : list nat) : Q :=
  if hd 0 idx =? 0 then draw idx else 0%Q.

(** A level for every sample, to shift a draw by. *)
Definition level (b : nat) : Q := Qplus (inject_Z (Z.of_nat b)) 1%Q.

(** A matcher on a device the runtime [cpu_only] does not know. *)
Definition matcher_tpu : ConditionalFlowMatcher :=
  mkCFM bad_config "tpu9" (-1 # 1)%Q 4%Z.

(** A batch of two samples without any node. *)
Definition no_nodes : tensor := of_lists [ []; [] ].

(** A rank-1 tensor, as a matrix of too low a rank. *)
Definition flat2 : tensor := of_list [1%Q; 2%Q].

(** Time values inside the interval. *)
Definition t_quarters : tensor := of_list [(1 # 4)%Q; (3 # 4)%Q].

End Samples.

(* ================================================================== *)
(** ** Sums of entries *)

Section Sums.
Local Open Scope Q_scope.

Variable I : Type.

Lemma fsum_map_fin (f : I -> fl) (g : I -> Q) (l : list I) :
  (forall i, In i l -> f i = Fin (g i)) ->
  fsum (map f l) = Fin (qsum (map g l)).
Proof.
  induction l as [|i l IH]; intros H; [reflexivity|].
  cbn [map fsum qsum fold_right].
  rewrite (H i (or_introl eq_refl)).
  fold (fsum (map f l)). rewrite IH by (intros; apply H; now right).
  reflexivity.
Qed.

Lemma qsum_ext (f g : I -> Q) (l : list I) :
  (forall i, In i l -> f i == g i) ->
  qsum (map f l) == qsum (map g l).
Proof.
  induction l as [|i l IH]; intros H; [reflexivity|].
  cbn [map qsum fold_right].
  fold (qsum (map f l)); fold (qsum (map g l)).
  rewrite IH by (intros; apply H; now right).
  rewrite (H i (or_introl eq_refl)). reflexivity.
Qed.

Lemma qsum_linear (f g : I -> Q) (c : Q) (l : list I) :
  qsum (map (fun i => f i - c * g i) l)
  == qsum (map f l) - c * qsum (map g l).
Proof.
  induction l as [|i l IH]; cbn [map qsum fold_right]; [ring|].
  fold (qsum (map (fun i => f i - c * g i) l)).
  fold (qsum (map f l)); fold (qsum (map g l)).
  rewrite IH. ring.
Qed.

Lemma qsum_nonneg (g : I -> Q) (l : list I) :
  (forall i, In i l -> 0 <= g i) -> 0 <= qsum (map g l).
Proof.
  induction l as [|i l IH]; intros H; cbn [map qsum fold_right]; [lra|].
  fold (qsum (map g l)).
  specialize (H i (or_introl eq_refl)) as Hi.
  assert (0 <= qsum (map g l)) by (apply IH; intros; apply H; now right).
  lra.
Qed.

Lemma qsum_ge_member (g : I -> Q) (l : list I) (i : I) :
  (forall k, In k l -> 0 <= g k) -> In i l -> g i <= qsum (map g l).
Proof.
  induction l as [|k l IH]; intros H Hin; [destruct Hin|].
  cbn [map qsum fold_right]. fold (qsum (map g l)).
  assert (Hl : 0 <= qsum (map g l))
    by (apply qsum_nonneg; intros; apply H; now right).
  destruct Hin as [->|Hin].
  - lra.
  - specialize (IH (fun k Hk => H k (or_intror Hk)) Hin).
    specialize (H k (or_introl eq_refl)). lra.
Qed.

Lemma qsum_zero (g : I -> Q) (l : list I) :
  (forall i, In i l -> g i == 0) -> qsum (map g l) == 0.
Proof.
  induction l as [|i l IH]; intros H; cbn [map qsum fold_right];
    [reflexivity|].
  fold (qsum (map g l)).
  rewrite IH by (intros; apply H; now right).
  rewrite (H i (or_introl eq_refl)). ring.
Qed.

End Sums.

(* ================================================================== *)
(** ** Shapes, indices and broadcasting *)

Section Shapes.

Lemma in_indices_range (s idx : list nat) :
  In idx (indices s) <-> in_range s idx.
Proof.
  unfold in_range. revert idx.
  induction s as [|n s IH]; intros idx; cbn [indices].
  - split.
    + intros [<-|[]]. constructor.
    + intros H; inversion H; now left.
  - rewrite in_flat_map. split.
    + intros (i & Hi & Hin). apply in_map_iff in Hin as (r & <- & Hr).
      apply in_seq in Hi. constructor; [lia | now apply IH].
    + intros H. inversion H as [|i n' r s' Hlt Hr]; subst.
      exists i. split; [apply in_seq; lia|].
      apply in_map. now apply IH.
Qed.

Lemma Forall2_lt_rev (idx s : list nat) :
  Forall2 lt idx s -> Forall2 lt (rev idx) (rev s).
Proof.
  induction 1 as [|i n idx s Hlt H IH]; cbn [rev]; [constructor|].
  apply Forall2_app; [exact IH | repeat constructor; exact Hlt].
Qed.

Lemma pdim_lt (d i : nat) : i < d -> pdim d i = i.
Proof.
  unfold pdim. intros H. destruct (Nat.eqb_spec d 1); lia.
Qed.

Lemma proj_rev_id (s idx : list nat) :
  Forall2 lt idx s -> proj_rev s idx = idx.
Proof.
  induction 1 as [|i n idx s Hlt H IH]; cbn [proj_rev]; [reflexivity|].
  now rewrite pdim_lt, IH.
Qed.

Lemma expand_index_id (s idx : list nat) :
  in_range s idx -> expand_index s idx = idx.
Proof.
  intros H. unfold expand_index.
  rewrite proj_rev_id by now apply Forall2_lt_rev.
  apply rev_involutive.
Qed.

Lemma expand_index_scalar (idx : list nat) : expand_index [] idx = [].
Proof. reflexivity. Qed.

Lemma bdim_same (a : nat) : bdim a a = Ok a.
Proof. unfold bdim. now rewrite Nat.eqb_refl. Qed.

Lemma bdim_one_l (a : nat) : bdim 1 a = Ok a.
Proof.
  unfold bdim. destruct (Nat.eqb_spec 1 a); [now subst|reflexivity].
Qed.

Lemma bdim_one_r (a : nat) : bdim a 1 = Ok a.
Proof.
  unfold bdim. destruct (Nat.eqb_spec a 1); [reflexivity|reflexivity].
Qed.

Lemma bdim_mismatch (a b : nat) :
  a <> b -> a <> 1 -> b <> 1 -> bdim a b = Err ShapeError.
Proof.
  intros Hab Ha Hb. unfold bdim.
  destruct (Nat.eqb_spec a b); [contradiction|].
  destruct (Nat.eqb_spec a 1); [contradiction|].
  destruct (Nat.eqb_spec b 1); [contradiction|reflexivity].
Qed.

Lemma bcast_rev_same (s : list nat) : bcast_rev s s = Ok s.
Proof.
  induction s as [|a s IH]; [reflexivity|].
  cbn [bcast_rev]. rewrite bdim_same. cbn [bind]. now rewrite IH.
Qed.

Lemma broadcast_same (s : list nat) : broadcast_shapes s s = Ok s.
Proof.
  unfold broadcast_shapes. rewrite bcast_rev_same. cbn [bind].
  now rewrite rev_involutive.
Qed.

Lemma broadcast_scalar_l (s : list nat) : broadcast_shapes [] s = Ok s.
Proof.
  unfold broadcast_shapes. cbn [rev bcast_rev bind].
  now rewrite rev_involutive.
Qed.

(** An elementwise operation on two tensors of one shape. *)
Lemma binop_same (f : fl -> fl -> fl) (a b : tensor) (s : list nat) :
  shape a = s -> shape b = s ->
  exists r, binop f a b = Ok r /\ shape r = s /\
    forall idx, in_range s idx ->
      elem r idx = f (elem a idx) (elem b idx).
Proof.
  intros Ha Hb. unfold binop. rewrite Ha, Hb, broadcast_same.
  cbn [bind]. eexists. split; [reflexivity|]. split; [reflexivity|].
  intros idx Hidx. cbn [elem]. now rewrite expand_index_id.
Qed.

(** A 0-dimensional tensor against any tensor. *)
Lemma binop_scalar_l (f : fl -> fl -> fl) (a b : tensor) :
  shape a = [] ->
  exists r, binop f a b = Ok r /\ shape r = shape b /\
    forall idx, in_range (shape b) idx ->
      elem r idx = f (item a) (elem b idx).
Proof.
  intros Ha. unfold binop. rewrite Ha, broadcast_scalar_l.
  cbn [bind]. eexists. split; [reflexivity|]. split; [reflexivity|].
  intros idx Hidx. cbn [elem]. rewrite (expand_index_id Hidx).
  reflexivity.
Qed.

End Shapes.

(* ================================================================== *)
(** ** The zero-centering primitive *)

Section ZeroCenter.
Local Open Scope Q_scope.

Lemma all_entries_spec (p : fl -> bool) (t : tensor) :
  all_entries p t = true <->
  forall idx, in_range (shape t) idx -> p (elem t idx) = true.
Proof.
  unfold all_entries. rewrite forallb_forall. split; intros H idx Hi.
  - apply H. now apply in_indices_range.
  - apply H. now apply in_indices_range.
Qed.

Lemma is_fin_qv (v : fl) : is_fin v = true -> v = Fin (qv v).
Proof. destruct v; cbn; congruence. Qed.

Lemma bit_cases (v : fl) :
  bit v = true -> exists q, v = Fin q /\ (q == 0 \/ q == 1).
Proof.
  unfold bit. destruct v as [q| | |]; cbn; try discriminate.
  intros H. exists q. split; [reflexivity|].
  apply orb_true_iff in H as [H|H]; apply Qeq_bool_iff in H; auto.
Qed.

Lemma bit_fin (v : fl) : bit v = true -> is_fin v = true.
Proof. intros H. apply bit_cases in H as (q & -> & _). reflexivity. Qed.

(** The sum of a tensor with finite entries. *)
Lemma tsum_finite (t : tensor) :
  finite t = true -> item (tsum t) = Fin (qsum (qentries t)).
Proof.
  intros H. unfold tsum, item, scalar, qentries. cbn [elem].
  apply fsum_map_fin. intros idx Hin. apply is_fin_qv.
  apply (proj1 (all_entries_spec _ _) H). now apply in_indices_range.
Qed.

Lemma is_mask_finite (m : tensor) : is_mask m = true -> finite m = true.
Proof.
  intros H. apply all_entries_spec. intros idx Hi. apply bit_fin.
  now apply (proj1 (all_entries_spec _ _) H).
Qed.

(** What [zero_center_func] returns on operands of one shape. *)
Lemma zero_center_func_entries (x m : tensor) :
  shape x = shape m ->
  exists out, zero_center_func x m = Ok out /\ shape out = shape x /\
    forall idx, in_range (shape x) idx ->
      elem out idx =
      fsub (elem x idx)
           (fmul (fdiv (item (tsum x)) (item (tsum m))) (elem m idx)).
Proof.
  intros Hs. unfold zero_center_func, tdiv, tmul, tsub.
  destruct (@binop_scalar_l fdiv (tsum x) (tsum m) eq_refl)
    as (mean & -> & Hmean_s & Hmean).
  cbn [bind].
  destruct (@binop_scalar_l fmul mean m Hmean_s)
    as (shift & -> & Hshift_s & Hshift).
  cbn [bind].
  destruct (@binop_same fsub x shift (shape x) eq_refl)
    as (out & Hout & Hout_s & Hout_e); [congruence|].
  exists out. split; [exact Hout|]. split; [exact Hout_s|].
  intros idx Hidx. rewrite (Hout_e idx Hidx).
  rewrite Hshift by (rewrite <- Hs; exact Hidx).
  unfold item at 1. rewrite (Hmean []) by constructor.
  reflexivity.
Qed.

(** With finite entries, a 0/1 mask and a positive mask sum, every entry
    is the value minus the total over the mask sum, times the mask. *)
Lemma zero_center_func_finite (x m : tensor) :
  shape x = shape m -> is_mask m = true -> finite x = true ->
  0 < qv (item (tsum m)) ->
  exists out, zero_center_func x m = Ok out /\ shape out = shape x /\
    forall idx, in_range (shape x) idx ->
      elem out idx =
      Fin (qv (elem x idx)
           + - (qsum (qentries x) / qsum (qentries m) * qv (elem m idx))).
Proof.
  intros Hs Hm Hx HN.
  destruct (zero_center_func_entries x m Hs) as (out & Hout & Hout_s & He).
  exists out. split; [exact Hout|]. split; [exact Hout_s|].
  intros idx Hidx. rewrite (He idx Hidx).
  pose proof (is_mask_finite m Hm) as Hmf.
  rewrite (tsum_finite m Hmf) in HN |- *. rewrite (tsum_finite x Hx).
  cbn [qv] in HN.
  rewrite (is_fin_qv (elem x idx))
    by (apply (proj1 (all_entries_spec _ _) Hx); exact Hidx).
  rewrite (is_fin_qv (elem m idx))
    by (apply (proj1 (all_entries_spec _ _) Hmf); rewrite <- Hs; exact Hidx).
  cbn [fdiv]. 
  replace (Qeq_bool (qsum (qentries m)) 0) with false.
  - reflexivity.
  - symmetry. apply not_true_iff_false. intros H.
    apply Qeq_bool_iff in H. lra.
Qed.

End ZeroCenter.

(* ================================================================== *)
(** ** Properties of the zero-centering primitive *)

Section ZeroCenterSums.
Local Open Scope Q_scope.

Lemma bit_square (q : Q) : q == 0 \/ q == 1 -> q * q == q.
Proof. intros [H|H]; rewrite H; ring. Qed.

(** The mask-weighted sum of the output is the mask-weighted sum of the
    input minus the sum of the whole input. *)
Lemma zero_center_masked_total (x m : tensor) :
  shape x = shape m -> is_mask m = true -> finite x = true ->
  0 < qv (item (tsum m)) ->
  exists out q, zero_center_func x m = Ok out /\
    masked_total m out = Ok (Fin q) /\
    q == qsum (map (fun idx => qv (elem x idx) * qv (elem m idx))
                   (indices (shape x)))
         - qsum (qentries x).
Proof.
  intros Hs Hm Hx HN.
  destruct (zero_center_func_finite x m Hs Hm Hx HN)
    as (out & Hout & Hout_s & He).
  unfold masked_total, tmul.
  destruct (@binop_same fmul out m (shape x) Hout_s (eq_sym Hs))
    as (w & Hw & Hw_s & Hw_e).
  pose proof (is_mask_finite m Hm) as Hmf.
  rewrite (tsum_finite m Hmf) in HN. cbn [qv] in HN.
  set (c := qsum (qentries x) / qsum (qentries m)) in *.
  exists out.
  exists (qsum (map (fun idx =>
            (qv (elem x idx) + - (c * qv (elem m idx))) * qv (elem m idx))
            (indices (shape x)))).
  split; [exact Hout|]. split.
  - rewrite Hw. cbn [bind]. f_equal.
    unfold tsum, item, scalar. cbn [elem]. rewrite Hw_s.
    apply fsum_map_fin. intros idx Hin.
    apply in_indices_range in Hin.
    rewrite (Hw_e idx Hin), (He idx Hin).
    assert (Hf : is_fin (elem m idx) = true)
      by (apply (proj1 (all_entries_spec _ _) Hmf); rewrite <- Hs;
          exact Hin).
    destruct (elem m idx); try discriminate Hf. reflexivity.
  - rewrite (qsum_ext _
      (fun idx => qv (elem x idx) * qv (elem m idx)
                  - c * qv (elem m idx))).
    + rewrite qsum_linear. unfold c.
      assert (E : qsum (map (fun idx => qv (elem m idx))
                            (indices (shape x))) == qsum (qentries m))
        by (unfold qentries; rewrite Hs; reflexivity).
      rewrite E. field. lra.
    + intros idx Hin. apply in_indices_range in Hin.
      assert (Hb : bit (elem m idx) = true)
        by (apply (proj1 (all_entries_spec _ _) Hm); rewrite <- Hs;
            exact Hin).
      apply bit_cases in Hb as (q & -> & Hq). cbn [qv].
      pose proof (bit_square Hq) as Hsq.
      transitivity (qv (elem x idx) * q - c * (q * q)); [ring|].
      now rewrite Hsq.
Qed.

(** C10.  For a 0/1 mask with positive sum and any tensor of the same
    shape with finite entries (zero outside the mask or not),
    [zero_center_func] returns a tensor whose entries, summed over all
    positions, give exactly zero. *)
Theorem zero_center_total_sum_zero (x m : tensor) :
  shape x = shape m -> is_mask m = true -> finite x = true ->
  0 < qv (item (tsum m)) ->
  exists out q, zero_center_func x m = Ok out /\ shape out = shape x /\
    item (tsum out) = Fin q /\ q == 0.
Proof.
  intros Hs Hm Hx HN.
  destruct (zero_center_func_finite x m Hs Hm Hx HN)
    as (out & Hout & Hout_s & He).
  pose proof (is_mask_finite m Hm) as Hmf.
  rewrite (tsum_finite m Hmf) in HN. cbn [qv] in HN.
  set (c := qsum (qentries x) / qsum (qentries m)) in *.
  exists out.
  exists (qsum (map (fun idx => qv (elem x idx) + - (c * qv (elem m idx)))
                    (indices (shape x)))).
  split; [exact Hout|]. split; [exact Hout_s|]. split.
  - unfold tsum, item, scalar. cbn [elem]. rewrite Hout_s.
    apply fsum_map_fin. intros idx Hin.
    apply in_indices_range in Hin. now rewrite (He idx Hin).
  - rewrite (qsum_ext _
      (fun idx => qv (elem x idx) - c * qv (elem m idx)))
      by (intros; reflexivity).
    rewrite qsum_linear. fold (qentries x).
    assert (E : qsum (map (fun idx => qv (elem m idx))
                          (indices (shape x))) == qsum (qentries m))
      by (unfold qentries; rewrite Hs; reflexivity).
    rewrite E. unfold c. field. lra.
Qed.

Lemma zero_center_total_sum_zero_witness :
  exists out q, zero_center_func Samples.ones2 Samples.mask10 = Ok out /\
    shape out = shape Samples.ones2 /\
    item (tsum out) = Fin q /\ q == 0.
Proof.
  apply (@zero_center_total_sum_zero Samples.ones2 Samples.mask10);
    reflexivity.
Defined.

(** C2, as the code has it.  For a 0/1 mask with positive sum and a tensor
    of the same shape with finite entries that is zero at every position
    the mask leaves out, the output of [zero_center_func], multiplied
    elementwise by the mask and summed, gives exactly zero. *)
Theorem zero_center_masked_sum_zero (x m : tensor) :
  shape x = shape m -> is_mask m = true -> finite x = true ->
  0 < qv (item (tsum m)) ->
  zero_off_mask m x = true ->
  exists out q, zero_center_func x m = Ok out /\
    masked_total m out = Ok (Fin q) /\ q == 0.
Proof.
  intros Hs Hm Hx HN Hoff.
  destruct (zero_center_masked_total x m Hs Hm Hx HN)
    as (out & q & Hout & Hq & Hval).
  exists out, q. split; [exact Hout|]. split; [exact Hq|].
  rewrite Hval. unfold qentries.
  rewrite (qsum_ext (fun idx => qv (elem x idx) * qv (elem m idx))
                    (fun idx => qv (elem x idx))); [ring|].
  intros idx Hin.
  unfold zero_off_mask in Hoff. rewrite forallb_forall in Hoff.
  rewrite Hs in Hin. specialize (Hoff idx Hin).
  apply in_indices_range in Hin.
  assert (Hb : bit (elem m idx) = true)
    by (apply (proj1 (all_entries_spec _ _) Hm); exact Hin).
  assert (Hf : is_fin (elem x idx) = true)
    by (apply (proj1 (all_entries_spec _ _) Hx); rewrite Hs; exact Hin).
  apply bit_cases in Hb as (b & Hb & Hcases).
  rewrite (is_fin_qv _ Hf) in Hoff. rewrite Hb in Hoff |- *.
  cbn [qv feqb] in *.
  destruct Hcases as [H0|H1].
  - apply Qeq_bool_iff in H0 as H0'. rewrite H0' in Hoff.
    cbn [negb orb] in Hoff. apply Qeq_bool_iff in Hoff.
    rewrite Hoff, H0. ring.
  - rewrite H1. ring.
Qed.

Lemma zero_center_masked_sum_zero_witness :
  exists out q, zero_center_func Samples.masked2 Samples.mask10 = Ok out /\
    masked_total Samples.mask10 out = Ok (Fin q) /\ q == 0.
Proof.
  apply (@zero_center_masked_sum_zero Samples.masked2 Samples.mask10);
    reflexivity.
Defined.

(** On a tensor that is not zero outside the mask the mask-weighted sum
    of the output is not zero: with values [1, 1] and mask [1, 0] the
    output is [-1, 1] and its mask-weighted sum is -1. *)
Lemma zero_center_masked_sum_counterexample :
  shape Samples.ones2 = shape Samples.mask10 /\
  is_mask Samples.mask10 = true /\
  finite Samples.ones2 = true /\
  0 < qv (item (tsum Samples.mask10)) /\
  (out <- zero_center_func Samples.ones2 Samples.mask10 ;;
   masked_total Samples.mask10 out) = Ok (Fin (-1 # 1)) /\
  feqb (Fin (-1 # 1)) (Fin 0) = false.
Proof. repeat split. Qed.

End ZeroCenterSums.

(* ================================================================== *)
(** ** Masked noise synthesis *)

Section MaskedNoise.
Local Open Scope Q_scope.

Variable device_available : String.string -> bool.
Variable self : ConditionalFlowMatcher.
Hypothesis device_ok : device_available (device self) = true.

Lemma truthy_of_bool (c : bool) : truthy (of_bool c) = c.
Proof. destruct c; reflexivity. Qed.

Lemma in_range_cons (b B : nat) (idx s : list nat) :
  in_range (B :: s) (b :: idx) <-> (b < B)%nat /\ in_range s idx.
Proof.
  unfold in_range. split.
  - intros H; inversion H; subst; auto.
  - intros [H1 H2]; now constructor.
Qed.

(** [vmap] of the zero-centering primitive over two batches of one
    shape: sample by sample. *)
Lemma vmap2_zero_center (x m : tensor) (B : nat) (s : list nat) :
  shape x = B :: s -> shape m = B :: s -> (0 < B)%nat ->
  exists r, vmap2 zero_center_func x m = Ok r /\ shape r = B :: s /\
    forall b idx, in_range s idx ->
      elem r (b :: idx) =
      fsub (elem x (b :: idx))
           (fmul (fdiv (item (tsum (unbind0 b x)))
                       (item (tsum (unbind0 b m))))
                 (elem m (b :: idx))).
Proof.
  intros Hx Hm HB. unfold vmap2. rewrite Hx, Hm, Nat.eqb_refl.
  replace (B =? 0)%nat with false by (symmetry; apply Nat.eqb_neq; lia).
  assert (Hsh : forall b, shape (unbind0 b x) = shape (unbind0 b m))
    by (intros b; cbn [unbind0 shape]; now rewrite Hx, Hm).
  destruct (zero_center_func_entries _ _ (Hsh O)) as (r0 & -> & Hr0 & _).
  cbn [bind]. eexists. split; [reflexivity|]. split.
  - cbn [shape]. rewrite Hr0. cbn [unbind0 shape]. now rewrite Hx.
  - intros b idx Hidx. cbn [elem].
    destruct (zero_center_func_entries _ _ (Hsh b)) as (rb & -> & _ & He).
    rewrite He; [reflexivity|].
    cbn [unbind0 shape]. now rewrite Hx.
Qed.

(** Entry by entry, what [zero_centered_noise] returns for a mask of the
    requested size, whatever the mask holds. *)
Lemma zero_centered_noise_entries (draw : list nat -> Q) (M : tensor)
    (B : nat) (s : list nat) :
  shape M = B :: s -> (0 < B)%nat ->
  exists out,
    zero_centered_noise device_available self draw (shape M) M = Ok out /\
    shape out = shape M /\
    forall b idx, in_range (shape M) (b :: idx) ->
      elem out (b :: idx) =
      if truthy (elem M (b :: idx))
      then fsub (fmul (Fin (draw (b :: idx))) (elem M (b :: idx)))
                (fmul (fdiv (sample_noise_sum draw M b)
                            (sample_mask_sum M b))
                      (elem M (b :: idx)))
      else Fin fill_value.
Proof.
  intros HM HB. unfold zero_centered_noise, to_device.
  rewrite device_ok. cbn [bind]. rewrite HM. unfold tmul.
  destruct (@binop_same fmul (randn (B :: s) draw) M (B :: s) eq_refl HM)
    as (xb & -> & Hxs & Hxe).
  cbn [bind].
  destruct (vmap2_zero_center xb M Hxs HM HB) as (c & -> & Hcs & Hce).
  cbn [bind]. unfold masked_fill.
  destruct (@binop_same (fun a m => if truthy m then Fin fill_value else a)
              c (logical_not (to_bool M)) (B :: s) Hcs HM)
    as (out & -> & Hos & Hoe).
  exists out. split; [reflexivity|]. split; [exact Hos|].
  intros b idx Hin. rewrite (Hoe _ Hin).
  cbn [logical_not to_bool tmap elem]. rewrite !truthy_of_bool.
  destruct (truthy (elem M (b :: idx))); cbn [negb]; [|reflexivity].
  apply in_range_cons in Hin as Hin'. destruct Hin' as [Hb Hidx].
  rewrite (Hce b idx Hidx), (Hxe _ Hin). cbn [randn elem].
  f_equal. f_equal. f_equal.
  unfold sample_noise_sum, tsum, item, scalar. cbn [elem unbind0 shape].
  rewrite Hxs, HM. cbn [tl]. f_equal.
  apply map_ext_in. intros i Hi. apply in_indices_range in Hi.
  rewrite Hxe by (apply in_range_cons; split; assumption).
  reflexivity.
Qed.

Lemma is_mask_entry (M : tensor) (idx : list nat) :
  is_mask M = true -> in_range (shape M) idx ->
  exists q, elem M idx = Fin q /\ (q == 0 \/ q == 1).
Proof.
  intros HM Hin. apply bit_cases.
  now apply (proj1 (all_entries_spec _ _) HM).
Qed.

(** The two per-sample totals of a 0/1 mask are finite. *)
Lemma sample_sums_finite (draw : list nat -> Q) (M : tensor)
    (B b : nat) (s : list nat) :
  shape M = B :: s -> is_mask M = true -> (b < B)%nat ->
  sample_mask_sum M b = Fin (mask_count M b) /\
  sample_noise_sum draw M b = Fin (masked_draw_total draw M b).
Proof.
  intros HM Hmask Hb.
  assert (Hent : forall i, In i (indices s) ->
            elem M (b :: i) = Fin (qv (elem M (b :: i)))).
  { intros i Hi. apply in_indices_range in Hi.
    destruct (@is_mask_entry M (b :: i) Hmask) as (q & -> & _);
      [|reflexivity].
    rewrite HM. now apply in_range_cons. }
  unfold sample_mask_sum, sample_noise_sum, mask_count, masked_draw_total.
  unfold tsum, item, scalar. cbn [elem unbind0 shape]. rewrite HM.
  cbn [tl]. split.
  - apply fsum_map_fin. exact Hent.
  - apply fsum_map_fin. intros i Hi. now rewrite (Hent i Hi) at 1.
Qed.

Lemma mask_count_nonneg (M : tensor) (B b : nat) (s : list nat) :
  shape M = B :: s -> is_mask M = true -> (b < B)%nat ->
  forall i, In i (indices s) -> 0 <= qv (elem M (b :: i)).
Proof.
  intros HM Hmask Hb i Hi. apply in_indices_range in Hi.
  destruct (@is_mask_entry M (b :: i) Hmask) as (q & -> & [Hq|Hq]);
    [rewrite HM; now apply in_range_cons| |]; cbn [qv]; lra.
Qed.

(** The noise under a 0/1 mask: the fill constant where the mask is 0,
    the centered draw where it is 1. *)
Lemma zero_centered_noise_mask_entries (draw : list nat -> Q) (M : tensor)
    (B : nat) (s : list nat) :
  shape M = B :: s -> (0 < B)%nat -> is_mask M = true ->
  exists out,
    zero_centered_noise device_available self draw (shape M) M = Ok out /\
    shape out = shape M /\
    forall b idx, in_range (shape M) (b :: idx) ->
      (feq (elem M (b :: idx)) (Fin 0) ->
       elem out (b :: idx) = Fin fill_value) /\
      (feq (elem M (b :: idx)) (Fin 1) ->
       0 < mask_count M b /\
       exists q, elem out (b :: idx) = Fin q /\
         q == draw (b :: idx)
              - masked_draw_total draw M b / mask_count M b).
Proof.
  intros HM HB Hmask.
  destruct (zero_centered_noise_entries draw M HM HB)
    as (out & Hout & Hos & He).
  exists out. split; [exact Hout|]. split; [exact Hos|].
  intros b idx Hin. rewrite (He b idx Hin).
  destruct (@is_mask_entry M (b :: idx) Hmask Hin) as (m & Hm & _).
  rewrite Hm. unfold feq, truthy, fneb. cbn [feqb]. split.
  - intros H0. now rewrite H0.
  - intros H1. apply Qeq_bool_iff in H1.
    rewrite HM in Hin. apply in_range_cons in Hin as [Hb Hidx].
    destruct (sample_sums_finite draw M HM Hmask Hb) as [-> ->].
    assert (Hpos : 0 < mask_count M b).
    { apply Qlt_le_trans with (qv (elem M (b :: idx))).
      - rewrite Hm. cbn [qv]. lra.
      - unfold mask_count. rewrite HM. cbn [tl].
        apply (@qsum_ge_member _ (fun i => qv (elem M (b :: i)))).
        + now apply mask_count_nonneg with (B := B).
        + now apply in_indices_range. }
    split; [exact Hpos|].
    replace (Qeq_bool m 0) with false
      by (symmetry; apply not_true_iff_false; intros E;
          apply Qeq_bool_iff in E; lra).
    cbn [negb fdiv].
    replace (Qeq_bool (mask_count M b) 0) with false
      by (symmetry; apply not_true_iff_false; intros E;
          apply Qeq_bool_iff in E; lra).
    eexists. split; [reflexivity|].
    rewrite H1. field. lra.
Qed.

(** C3.  For a 0/1 mask [M] of the requested size over a batch of at
    least one sample, [zero_centered_noise]
    returns a tensor of that shape which holds the fill constant 1e-19
    (which is not zero, and does not depend on the draw) at every position
    where [M] is 0, and at every position where [M] is 1 the zero-centered
    noise: the draw at that position minus the sum of the masked draws of
    the sample divided by the number of valid positions of the sample. *)
Theorem zero_centered_noise_positions (draw : list nat -> Q) (M : tensor)
    (B : nat) (s : list nat) :
  shape M = B :: s -> (0 < B)%nat -> is_mask M = true ->
  exists out,
    zero_centered_noise device_available self draw (shape M) M = Ok out /\
    shape out = shape M /\
    feqb (Fin fill_value) (Fin 0) = false /\
    forall b idx, in_range (shape M) (b :: idx) ->
      (feq (elem M (b :: idx)) (Fin 0) ->
       elem out (b :: idx) = Fin fill_value) /\
      (feq (elem M (b :: idx)) (Fin 1) ->
       0 < mask_count M b /\
       exists q, elem out (b :: idx) = Fin q /\
         q == draw (b :: idx)
              - masked_draw_total draw M b / mask_count M b).
Proof.
  intros HM HB Hmask.
  destruct (zero_centered_noise_mask_entries draw M HM HB Hmask)
    as (out & Hout & Hos & He).
  exists out. split; [exact Hout|]. split; [exact Hos|].
  split; [reflexivity|]. exact He.
Qed.

(** C4, as the code has it.  A sample whose mask is all zero raises
    nothing.  For a 0/1 mask of the requested size over a batch of at
    least one sample [zero_centered_noise]
    returns a tensor with finite entries only; for a sample whose mask sum
    is zero the zero-centering primitive returns NaN at every position of
    that sample (the mean is 0/0), and the masked fill then puts the
    fill constant at every position of that sample. *)
Theorem zero_centered_noise_degenerate (draw : list nat -> Q) (M : tensor)
    (B : nat) (s : list nat) :
  shape M = B :: s -> (0 < B)%nat -> is_mask M = true ->
  exists out x_batch,
    zero_centered_noise device_available self draw (shape M) M = Ok out /\
    shape out = shape M /\ finite out = true /\
    tmul (randn (shape M) draw) M = Ok x_batch /\
    forall b, (b < B)%nat -> feq (sample_mask_sum M b) (Fin 0) ->
      exists centered,
        zero_center_func (unbind0 b x_batch) (unbind0 b M) = Ok centered /\
        forall idx, in_range s idx ->
          elem centered idx = NaN /\
          elem out (b :: idx) = Fin fill_value.
Proof.
  intros HM HB Hmask.
  destruct (zero_centered_noise_mask_entries draw M HM HB Hmask)
    as (out & Hout & Hos & Hpos).
  destruct (@binop_same fmul (randn (shape M) draw) M (shape M)
              eq_refl eq_refl) as (xb & Hxb & Hxs & Hxe).
  exists out, xb. split; [exact Hout|]. split; [exact Hos|]. split.
  { apply all_entries_spec. intros idx Hin. rewrite Hos in Hin.
    destruct idx as [|b idx]; [rewrite HM in Hin; inversion Hin|].
    destruct (Hpos b idx Hin) as [H0 H1].
    destruct (@is_mask_entry M (b :: idx) Hmask Hin) as (m & Hm & [Hq|Hq]).
    - rewrite H0; [reflexivity|].
      rewrite Hm. unfold feq. cbn [feqb]. now apply Qeq_bool_iff.
    - destruct H1 as (_ & q & -> & _); [|reflexivity].
      rewrite Hm. unfold feq. cbn [feqb]. now apply Qeq_bool_iff. }
  split; [exact Hxb|].
  intros b Hb Hdeg.
  destruct (sample_sums_finite draw M HM Hmask Hb) as [HN HS].
  rewrite HN in Hdeg. unfold feq in Hdeg. cbn [feqb] in Hdeg.
  apply Qeq_bool_iff in Hdeg.
  (* every entry of the mask of the sample is zero *)
  assert (Hzero : forall i, In i (indices s) -> qv (elem M (b :: i)) == 0).
  { intros i Hi.
    pose proof (mask_count_nonneg M HM Hmask Hb) as Hnn.
    pose proof (@qsum_ge_member _ (fun i => qv (elem M (b :: i)))
                  (indices s) i Hnn Hi) as Hle.
    unfold mask_count in Hdeg. rewrite HM in Hdeg. cbn [tl] in Hdeg.
    specialize (Hnn i Hi). cbn beta in Hle. lra. }
  assert (Hsh : shape (unbind0 b xb) = shape (unbind0 b M))
    by (cbn [unbind0 shape]; now rewrite Hxs).
  destruct (zero_center_func_entries _ _ Hsh) as (c & Hc & Hcs & Hce).
  exists c. split; [exact Hc|].
  intros idx Hidx.
  assert (Hin : in_range (shape M) (b :: idx))
    by (rewrite HM; now apply in_range_cons).
  destruct (@is_mask_entry M (b :: idx) Hmask Hin) as (m & Hm & _).
  assert (Hm0 : m == 0).
  { specialize (Hzero idx (proj2 (in_indices_range _ _) Hidx)).
    rewrite Hm in Hzero. exact Hzero. }
  split.
  - rewrite Hce by (cbn [unbind0 shape]; rewrite Hxs, HM; exact Hidx).
    (* the total of the sample is 0 and so is its mask sum *)
    assert (Htot : item (tsum (unbind0 b xb)) = sample_noise_sum draw M b).
    { unfold sample_noise_sum, tsum, item, scalar.
      cbn [elem unbind0 shape]. rewrite Hxs, HM. cbn [tl]. f_equal.
      apply map_ext_in. intros i Hi. apply in_indices_range in Hi.
      rewrite Hxe by (rewrite HM; now apply in_range_cons).
      reflexivity. }
    rewrite Htot, HS. fold (sample_mask_sum M b). rewrite HN.
    cbn [fdiv].
    replace (Qeq_bool (mask_count M b) 0) with true
      by (symmetry; now apply Qeq_bool_iff).
    assert (HS0 : masked_draw_total draw M b == 0).
    { unfold masked_draw_total. rewrite HM. cbn [tl].
      apply qsum_zero. intros i Hi. rewrite (Hzero i Hi). ring. }
    unfold qsign. apply Qeq_alt in HS0. rewrite HS0.
    cbn [unbind0 elem]. rewrite Hm.
    destruct (elem xb (b :: idx)); reflexivity.
  - apply (Hpos b idx Hin). rewrite Hm. unfold feq. cbn [feqb].
    now apply Qeq_bool_iff.
Qed.

End MaskedNoise.

(* ================================================================== *)
(** ** Symmetric matrix noise *)

Section BEMatrix.

Variable MATRIX_PAD : Q.
Variable device_available : String.string -> bool.
Variable self : ConditionalFlowMatcher.
Hypothesis device_ok : device_available (device self) = true.

Lemma in_range4 (B n m D : nat) (idx : list nat) :
  in_range [B; n; m; D] idx <->
  exists b i j d, idx = [b; i; j; d] /\
    b < B /\ i < n /\ j < m /\ d < D.
Proof.
  unfold in_range. split.
  - intros H.
    inversion H as [|b ? r1 ? Hb H1]; subst.
    inversion H1 as [|i ? r2 ? Hi H2]; subst.
    inversion H2 as [|j ? r3 ? Hj H3]; subst.
    inversion H3 as [|d ? r4 ? Hd H4]; subst.
    inversion H4; subst. exists b, i, j, d. auto.
  - intros (b & i & j & d & -> & Hb & Hi & Hj & Hd).
    repeat constructor; assumption.
Qed.

Lemma in_range4_intro (B n m D b i j d : nat) :
  b < B -> i < n -> j < m -> d < D ->
  in_range [B; n; m; D] [b; i; j; d].
Proof. intros. apply in_range4. exists b, i, j, d. auto. Qed.

Lemma in_range3 (n m D : nat) (idx : list nat) :
  in_range [n; m; D] idx <->
  exists i j d, idx = [i; j; d] /\ i < n /\ j < m /\ d < D.
Proof.
  unfold in_range. split.
  - intros H.
    inversion H as [|i ? r2 ? Hi H2]; subst.
    inversion H2 as [|j ? r3 ? Hj H3]; subst.
    inversion H3 as [|d ? r4 ? Hd H4]; subst.
    inversion H4; subst. exists i, j, d. auto.
  - intros (i & j & d & -> & Hi & Hj & Hd).
    repeat constructor; assumption.
Qed.

(** Row mask against column mask: the outer product over the node axes. *)
Lemma broadcast_outer (B n D : nat) :
  broadcast_shapes [B; 1; n; D] [B; n; 1; D] = Ok [B; n; n; D].
Proof.
  unfold broadcast_shapes. cbn [rev app bcast_rev].
  rewrite !bdim_same, bdim_one_l, bdim_one_r. reflexivity.
Qed.

Lemma trunc_bits (c1 c2 : bool) :
  trunc (fmul (of_bool c1) (of_bool c2)) = of_bool (c1 && c2).
Proof. destruct c1, c2; reflexivity. Qed.

Lemma bit_of_bool (c : bool) : bit (of_bool c) = true.
Proof. destruct c; reflexivity. Qed.

(** What [sample_be_matrix] returns on a rank-4 matrix with square node
    axes and at least one sample: the matrix plus [sigma] times the
    average of the masked noise and its transpose; the noise is the fill
    constant at an invalid pair and the draw minus the mean of the draw
    over the valid pairs of the sample at a valid one. *)
Lemma sample_be_matrix_noise (draw : list nat -> Q) (matrix : tensor)
    (B n D : nat) :
  shape matrix = [B; n; n; D] -> 0 < B -> 0 < n ->
  exists out noise,
    sample_be_matrix MATRIX_PAD device_available self draw matrix = Ok out /\
    shape out = [B; n; n; D] /\
    forall b i j d, b < B -> i < n -> j < n -> d < D ->
      elem out [b; i; j; d] =
        fadd (elem matrix [b; i; j; d])
             (fmul (fmul (Fin (1 # 2))
                         (fadd (elem noise [b; i; j; d])
                               (elem noise [b; j; i; d])))
                   (Fin (sigma self))) /\
      exists q, elem noise [b; i; j; d] = Fin q /\
        (pair_valid MATRIX_PAD matrix b i j d = false -> q = fill_value) /\
        (pair_valid MATRIX_PAD matrix b i j d = true ->
         (0 < valid_count MATRIX_PAD matrix b)%Q /\
         (q == draw [b; i; j; d]
               - valid_draw_total MATRIX_PAD matrix draw b
                 / valid_count MATRIX_PAD matrix b)%Q).
Proof.
  intros Hs HB Hn. unfold sample_be_matrix, select.
  rewrite Hs. cbn [nth_error]. rewrite (proj2 (Nat.ltb_lt 0 n) Hn).
  cbn [bind remove_at]. unfold unsqueeze, ndim, ne_scalar, tmap.
  cbn [shape length Nat.leb bind insert_at elem]. unfold tmul at 1, binop.
  cbn [shape]. rewrite broadcast_outer. cbn [bind elem].
  match goal with
  | |- context [long ?t] => set (masks := long t)
  end.
  assert (Hms : shape masks = [B; n; n; D]) by reflexivity.
  assert (Hme : forall b i j d, b < B -> i < n -> j < n -> d < D ->
            elem masks [b; i; j; d]
            = of_bool (pair_valid MATRIX_PAD matrix b i j d)).
  { intros b i j d Hb Hi Hj Hd. unfold masks, long, tmap. cbn [elem].
    rewrite trunc_bits. unfold expand_index.
    cbn [rev app proj_rev remove_at insert_at].
    rewrite !pdim_lt by assumption. reflexivity. }
  assert (Hmask : is_mask masks = true).
  { apply all_entries_spec. intros idx Hin. rewrite Hms in Hin.
    apply in_range4 in Hin as (b & i & j & d & -> & Hb & Hi & Hj & Hd).
    rewrite Hme by assumption. apply bit_of_bool. }
  assert (Hcnt : forall b, b < B ->
            (mask_count masks b == valid_count MATRIX_PAD matrix b)%Q).
  { intros b Hb. unfold mask_count, valid_count. rewrite Hms, Hs.
    cbn [tl]. apply qsum_ext. intros idx Hin.
    apply in_indices_range in Hin.
    apply in_range3 in Hin as (i & j & d & -> & Hi & Hj & Hd).
    rewrite Hme by assumption. cbn [pair_weight].
    destruct (pair_valid MATRIX_PAD matrix b i j d); reflexivity. }
  assert (Htot : forall b, b < B ->
            (masked_draw_total draw masks b
             == valid_draw_total MATRIX_PAD matrix draw b)%Q).
  { intros b Hb. unfold masked_draw_total, valid_draw_total.
    rewrite Hms, Hs. cbn [tl]. apply qsum_ext. intros idx Hin.
    apply in_indices_range in Hin.
    apply in_range3 in Hin as (i & j & d & -> & Hi & Hj & Hd).
    rewrite Hme by assumption. cbn [pair_weight].
    destruct (pair_valid MATRIX_PAD matrix b i j d); reflexivity. }
  destruct (@zero_centered_noise_mask_entries device_available self
              device_ok draw masks B [n; n; D] Hms HB Hmask)
    as (noise & -> & Hns & Hne).
  rewrite Hms in Hns, Hne.
  cbn [bind]. unfold transpose, ndim. rewrite Hns.
  cbn [length Nat.ltb Nat.leb andb bind].
  unfold tadd.
  match goal with
  | |- context [binop fadd noise ?t] =>
      destruct (@binop_same fadd noise t [B; n; n; D] Hns eq_refl)
        as (both & -> & Hbs & Hbe)
  end.
  cbn [bind].
  match goal with
  | |- context [binop fadd matrix ?t] =>
      destruct (@binop_same fadd matrix t [B; n; n; D] Hs Hbs)
        as (out & -> & Hos & Hoe)
  end.
  exists out, noise. split; [reflexivity|]. split; [exact Hos|].
  intros b i j d Hb Hi Hj Hd.
  pose proof (in_range4_intro Hb Hi Hj Hd) as Hin.
  split.
  - rewrite (Hoe _ Hin). cbn [tmap elem]. rewrite (Hbe _ Hin).
    reflexivity.
  - destruct (Hne b [i; j; d] Hin) as [H0 H1].
    rewrite Hme in H0, H1 by assumption.
    destruct (pair_valid MATRIX_PAD matrix b i j d).
    + destruct (H1 eq_refl) as (Hpos & q & Hq & Hv). exists q.
      split; [exact Hq|]. split; [discriminate|].
      intros _. rewrite (Hcnt b Hb) in Hpos, Hv.
      rewrite (Htot b Hb) in Hv. split; assumption.
    + exists fill_value. split; [now apply H0|].
      split; [reflexivity|discriminate].
Qed.

(** The same, with the noise term named: it is symmetric in the node
    axes, is the fill constant at every invalid node pair, and at a
    valid pair is the average of the draw at the pair and at its
    transpose minus the mean of the draw over the valid pairs of the
    sample. *)
Lemma sample_be_matrix_perturbation (draw : list nat -> Q)
    (matrix : tensor) (B n D : nat) :
  shape matrix = [B; n; n; D] -> 0 < B -> 0 < n ->
  exists out (eps : nat -> nat -> nat -> nat -> Q),
    sample_be_matrix MATRIX_PAD device_available self draw matrix = Ok out /\
    shape out = [B; n; n; D] /\
    forall b i j d, b < B -> i < n -> j < n -> d < D ->
      elem out [b; i; j; d]
      = fadd (elem matrix [b; i; j; d]) (Fin (eps b i j d * sigma self)%Q) /\
      (eps b i j d == eps b j i d)%Q /\
      (pair_valid MATRIX_PAD matrix b i j d = false ->
       (eps b i j d == fill_value)%Q) /\
      (pair_valid MATRIX_PAD matrix b i j d = true ->
       (0 < valid_count MATRIX_PAD matrix b)%Q /\
       (eps b i j d
        == (1 # 2) * (draw [b; i; j; d] + draw [b; j; i; d])
           - valid_draw_total MATRIX_PAD matrix draw b
             / valid_count MATRIX_PAD matrix b)%Q).
Proof.
  intros Hs HB Hn.
  destruct (sample_be_matrix_noise draw matrix Hs HB Hn)
    as (out & noise & Hout & Hos & He).
  exists out.
  exists (fun b i j d =>
            ((1 # 2) * (qv (elem noise [b; i; j; d])
                        + qv (elem noise [b; j; i; d])))%Q).
  split; [exact Hout|]. split; [exact Hos|].
  intros b i j d Hb Hi Hj Hd.
  destruct (He b i j d Hb Hi Hj Hd) as (Hval & q & Hq & Hfill & Hv).
  destruct (He b j i d Hb Hj Hi Hd) as (_ & q' & Hq' & Hfill' & Hv').
  assert (Hpv : pair_valid MATRIX_PAD matrix b j i d
                = pair_valid MATRIX_PAD matrix b i j d)
    by (unfold pair_valid; apply andb_comm).
  rewrite Hpv in Hfill', Hv'.
  rewrite Hval, Hq, Hq'. cbn [qv fadd fmul].
  split; [reflexivity|]. split; [ring|]. split.
  - intros Hinv. rewrite (Hfill Hinv), (Hfill' Hinv). field.
  - intros Hvalid.
    destruct (Hv Hvalid) as [Hpos E]. destruct (Hv' Hvalid) as [_ E'].
    split; [exact Hpos|]. rewrite E, E'. field. lra.
Qed.

Lemma fadd_feq (a a' : fl) (q q' : Q) :
  feq a a' -> (q == q')%Q -> feq (fadd a (Fin q)) (fadd a' (Fin q')).
Proof.
  unfold feq. intros Ha Hq.
  destruct a as [p| | |], a' as [p'| | |]; cbn in *;
    try discriminate; try reflexivity.
  apply Qeq_bool_iff in Ha. apply Qeq_bool_iff. now rewrite Ha, Hq.
Qed.

(** C1, as the code has it.  For a padded rank-4 matrix of at least one
    sample that is itself
    symmetric under exchange of the two node axes, the output of
    [sample_be_matrix] is symmetric under that exchange, for every batch
    and feature index. *)
Theorem sample_be_matrix_symmetric (draw : list nat -> Q)
    (matrix : tensor) (B n D : nat) :
  shape matrix = [B; n; n; D] -> 0 < B -> 0 < n ->
  symmetric matrix = true ->
  exists out,
    sample_be_matrix MATRIX_PAD device_available self draw matrix = Ok out /\
    shape out = shape matrix /\
    symmetric out = true /\
    forall b i j d, b < B -> i < n -> j < n -> d < D ->
      feq (elem out [b; i; j; d]) (elem out [b; j; i; d]).
Proof.
  intros Hs HB Hn Hsym.
  destruct (sample_be_matrix_perturbation draw matrix Hs HB Hn)
    as (out & eps & Hout & Hos & He).
  exists out. split; [exact Hout|]. split; [congruence|].
  assert (Hent : forall b i j d, b < B -> i < n -> j < n -> d < D ->
            feq (elem out [b; i; j; d]) (elem out [b; j; i; d])).
  { intros b i j d Hb Hi Hj Hd.
    destruct (He b i j d Hb Hi Hj Hd) as (-> & Heps & _).
    destruct (He b j i d Hb Hj Hi Hd) as (-> & _ & _).
    apply fadd_feq.
    - unfold symmetric in Hsym. rewrite forallb_forall in Hsym.
      apply (Hsym [b; i; j; d]). rewrite Hs.
      apply in_indices_range. now apply in_range4_intro.
    - now rewrite Heps. }
  split; [|exact Hent].
  unfold symmetric. apply forallb_forall. intros idx Hin.
  rewrite Hos in Hin. apply in_indices_range in Hin.
  apply in_range4 in Hin as (b & i & j & d & -> & Hb & Hi & Hj & Hd).
  now apply Hent.
Qed.

(** C5.  For a padded rank-4 matrix of at least one sample, the output
    of [sample_be_matrix] is the input plus [sigma] times a noise term
    that is symmetric in the two node axes.  At every invalid node pair
    that term is the fill constant, so the output there is the input
    plus exactly [sigma] times the fill constant; a position where the
    output is anything else is a valid node pair, and there the term is
    the average of the draw at the pair and at its transpose, minus the
    mean of the draw over the valid pairs of the sample. *)
Theorem sample_be_matrix_frame (draw : list nat -> Q)
    (matrix : tensor) (B n D : nat) :
  shape matrix = [B; n; n; D] -> 0 < B -> 0 < n ->
  exists out (eps : nat -> nat -> nat -> nat -> Q),
    sample_be_matrix MATRIX_PAD device_available self draw matrix = Ok out /\
    shape out = shape matrix /\
    forall b i j d, b < B -> i < n -> j < n -> d < D ->
      elem out [b; i; j; d]
      = fadd (elem matrix [b; i; j; d]) (Fin (eps b i j d * sigma self)%Q) /\
      (eps b i j d == eps b j i d)%Q /\
      (pair_valid MATRIX_PAD matrix b i j d = false ->
       (eps b i j d * sigma self == sigma self * fill_value)%Q) /\
      (~ (eps b i j d * sigma self == sigma self * fill_value)%Q ->
       pair_valid MATRIX_PAD matrix b i j d = true) /\
      (pair_valid MATRIX_PAD matrix b i j d = true ->
       (0 < valid_count MATRIX_PAD matrix b)%Q /\
       (eps b i j d
        == (1 # 2) * (draw [b; i; j; d] + draw [b; j; i; d])
           - valid_draw_total MATRIX_PAD matrix draw b
             / valid_count MATRIX_PAD matrix b)%Q).
Proof.
  intros Hs HB Hn.
  destruct (sample_be_matrix_perturbation draw matrix Hs HB Hn)
    as (out & eps & Hout & Hos & He).
  exists out, eps. split; [exact Hout|]. split; [congruence|].
  intros b i j d Hb Hi Hj Hd.
  destruct (He b i j d Hb Hi Hj Hd) as (Hval & Heps & Hfill & Hvalid).
  split; [exact Hval|]. split; [exact Heps|].
  assert (Hinv : pair_valid MATRIX_PAD matrix b i j d = false ->
            (eps b i j d * sigma self == sigma self * fill_value)%Q)
    by (intros Hpv; rewrite (Hfill Hpv); ring).
  split; [exact Hinv|]. split; [|exact Hvalid].
  intros Hne.
  destruct (pair_valid MATRIX_PAD matrix b i j d); [reflexivity|].
  exfalso. apply Hne. now apply Hinv.
Qed.

End BEMatrix.

(* ================================================================== *)
(** ** Conditional path sampler *)

Section PathSampler.

Variable MATRIX_PAD : Q.
Variable device_available : String.string -> bool.
Variable self : ConditionalFlowMatcher.

Lemma flat_map_single {A C} (g : A -> C) (l : list A) :
  flat_map (fun i => [g i]) l = map g l.
Proof. induction l as [|a l IH]; cbn; [reflexivity|now rewrite IH]. Qed.

Lemma indices_vector (k : nat) :
  indices [k] = map (fun i => [i]) (seq 0 k).
Proof. cbn [indices map]. apply flat_map_single. Qed.

Lemma numel_vector (k : nat) : numel [k] = k.
Proof.
  unfold numel. now rewrite indices_vector, length_map, length_seq.
Qed.

Lemma nth_indices_vector (k r : nat) :
  r < k -> nth r (indices [k]) [] = [r].
Proof.
  intros H. rewrite indices_vector.
  rewrite nth_indep with (d' := (fun i => [i]) 0)
    by now rewrite length_map, length_seq.
  rewrite (map_nth (fun i => [i]) (seq 0 k) 0 r).
  now rewrite seq_nth.
Qed.

Lemma bdim_pdim (a b R r : nat) :
  bdim a b = Ok R -> r < R -> pdim a r < a /\ pdim b r < b.
Proof.
  unfold bdim, pdim. intros H Hr.
  destruct (Nat.eqb_spec a b) as [->|Hab].
  - injection H as <-. destruct (Nat.eqb_spec b 1); lia.
  - destruct (Nat.eqb_spec a 1) as [->|Ha].
    + injection H as <-. destruct (Nat.eqb_spec b 1); lia.
    + destruct (Nat.eqb_spec b 1) as [->|Hb]; [|discriminate].
      injection H as <-. lia.
Qed.

Lemma broadcast_time (k B n D R : nat) :
  bdim k B = Ok R ->
  broadcast_shapes [k; 1; 1; 1] [B; n; n; D] = Ok [R; n; n; D].
Proof.
  intros H. unfold broadcast_shapes. cbn [rev app bcast_rev].
  rewrite !bdim_one_l, H. reflexivity.
Qed.

Lemma broadcast_time_mismatch (k B n D : nat) :
  bdim k B = Err ShapeError ->
  broadcast_shapes [k; 1; 1; 1] [B; n; n; D] = Err ShapeError.
Proof.
  intros H. unfold broadcast_shapes. cbn [rev app bcast_rev].
  rewrite !bdim_one_l, H. reflexivity.
Qed.

(** A time vector that cannot be broadcast against the batch axis is
    rejected by the first product. *)
Lemma sample_conditional_pt_mismatch (draw : list nat -> Q)
    (x0 x1 t : tensor) (B n D k : nat) :
  shape x0 = [B; n; n; D] -> shape x1 = [B; n; n; D] -> shape t = [k] ->
  bdim k B = Err ShapeError ->
  sample_conditional_pt MATRIX_PAD device_available self draw x0 x1 t
  = Err ShapeError.
Proof.
  intros H0 H1 Ht Hbd. unfold sample_conditional_pt, ndim, tmul, binop.
  rewrite H0. cbn [length Nat.sub reshape_column shape repeat].
  rewrite Ht, numel_vector, H1, (@broadcast_time_mismatch k B n D Hbd).
  reflexivity.
Qed.

Hypothesis device_ok : device_available (device self) = true.

(** The sample returned when the time vector broadcasts against the
    batch axis to a batch of at least one sample: the interpolation,
    entry by entry, plus [sigma] times a noise term that is symmetric in
    the node axes. *)
Lemma sample_conditional_pt_entries (draw : list nat -> Q)
    (x0 x1 t : tensor) (B n D k R : nat) :
  shape x0 = [B; n; n; D] -> shape x1 = [B; n; n; D] -> shape t = [k] ->
  bdim k B = Ok R -> 0 < R -> 0 < n ->
  exists out (eps : nat -> nat -> nat -> nat -> Q),
    sample_conditional_pt MATRIX_PAD device_available self draw x0 x1 t
    = Ok out /\
    shape out = [R; n; n; D] /\
    forall r i j d, r < R -> i < n -> j < n -> d < D ->
      elem out [r; i; j; d] =
      fadd (fadd (fmul (elem t [pdim k r]) (elem x1 [pdim B r; i; j; d]))
                 (fmul (fsub (Fin 1%Q) (elem t [pdim k r]))
                       (elem x0 [pdim B r; i; j; d])))
           (Fin (eps r i j d * sigma self)%Q) /\
      (eps r i j d == eps r j i d)%Q.
Proof.
  intros H0 H1 Ht Hbd HR Hn.
  unfold sample_conditional_pt, ndim, tmul, binop.
  rewrite H0. cbn [length Nat.sub reshape_column shape repeat tmap].
  rewrite Ht, numel_vector, H1, (@broadcast_time k B n D R Hbd).
  cbn [bind shape elem]. unfold tadd, binop. cbn [shape].
  rewrite broadcast_same. cbn [bind].
  match goal with
  | |- context [sample_be_matrix _ _ _ _ ?m] => set (mu := m)
  end.
  destruct (@sample_be_matrix_perturbation MATRIX_PAD device_available
              self device_ok draw mu R n D eq_refl HR Hn)
    as (out & eps & Hout & Hos & He).
  exists out, eps. split; [exact Hout|]. split; [exact Hos|].
  intros r i j d Hr Hi Hj Hd.
  destruct (He r i j d Hr Hi Hj Hd) as (-> & Hsym & _).
  split; [|exact Hsym].
  f_equal. unfold mu. cbn [elem]. unfold expand_index.
  cbn [rev app proj_rev hd].
  destruct (@bdim_pdim k B R r Hbd Hr) as [Hk HB].
  rewrite !(pdim_lt Hi), !(pdim_lt Hj), !(pdim_lt Hd).
  rewrite !(pdim_lt Hr).
  change (pdim 1 i) with 0. change (pdim 1 j) with 0.
  change (pdim 1 d) with 0.
  unfold reshape_column, tmap. cbn [elem hd]. rewrite Ht.
  rewrite (nth_indices_vector Hk). reflexivity.
Qed.

Lemma finite_entry (x : tensor) (idx : list nat) :
  finite x = true -> in_range (shape x) idx ->
  exists q, elem x idx = Fin q.
Proof.
  intros H Hin. exists (qv (elem x idx)). apply is_fin_qv.
  now apply (proj1 (all_entries_spec _ _) H).
Qed.

Lemma constant_entry (c : Q) (t : tensor) (idx : list nat) :
  constant c t = true -> in_range (shape t) idx ->
  exists q, elem t idx = Fin q /\ (q == c)%Q.
Proof.
  intros H Hin.
  pose proof (proj1 (all_entries_spec _ _) H idx Hin) as E. cbn beta in E.
  destruct (elem t idx) as [q| | |]; try discriminate E.
  exists q. split; [reflexivity|]. now apply Qeq_bool_iff.
Qed.

(** C6.  With [sigma] zero, batches [x0] and [x1] of one rank-4 shape
    with at least one sample, finite entries and one time value per
    sample:
    [sample_conditional_pt] returns [x0] when every time value is 0 and
    [x1] when every time value is 1. *)
Theorem sample_conditional_pt_endpoints (draw : list nat -> Q)
    (x0 x1 t : tensor) (B n D : nat) :
  shape x0 = [B; n; n; D] -> shape x1 = [B; n; n; D] -> shape t = [B] ->
  0 < B -> 0 < n -> finite x0 = true -> finite x1 = true ->
  (sigma self == 0)%Q ->
  (constant 0%Q t = true ->
   exists out,
     sample_conditional_pt MATRIX_PAD device_available self draw x0 x1 t
     = Ok out /\
     shape out = shape x0 /\
     forall idx, in_range (shape x0) idx ->
       feq (elem out idx) (elem x0 idx)) /\
  (constant 1%Q t = true ->
   exists out,
     sample_conditional_pt MATRIX_PAD device_available self draw x0 x1 t
     = Ok out /\
     shape out = shape x1 /\
     forall idx, in_range (shape x1) idx ->
       feq (elem out idx) (elem x1 idx)).
Proof.
  intros H0 H1 Ht HB Hn Hf0 Hf1 Hsig.
  destruct (@sample_conditional_pt_entries draw x0 x1 t B n D B B
              H0 H1 Ht (bdim_same B) HB Hn)
    as (out & eps & Hout & Hos & He).
  assert (Hent : forall c idx, constant c t = true ->
            in_range [B; n; n; D] idx ->
            exists q a0 a1 e,
              (q == c)%Q /\ elem x0 idx = Fin a0 /\ elem x1 idx = Fin a1 /\
              elem out idx
              = Fin (q * a1 + (1 + - q) * a0 + e * sigma self)%Q).
  { intros c idx Hc Hin.
    apply in_range4 in Hin as Hin'.
    destruct Hin' as (b & i & j & d & -> & Hb & Hi & Hj & Hd).
    rewrite (proj1 (He b i j d Hb Hi Hj Hd)), (pdim_lt Hb).
    destruct (@constant_entry c t [b] Hc) as (q & -> & Hq);
      [rewrite Ht; repeat constructor; exact Hb|].
    destruct (@finite_entry x0 [b; i; j; d] Hf0) as (a0 & ->);
      [now rewrite H0|].
    destruct (@finite_entry x1 [b; i; j; d] Hf1) as (a1 & ->);
      [now rewrite H1|].
    exists q, a0, a1, (eps b i j d). auto. }
  split; intros Hc; exists out; (split; [exact Hout|]);
    (split; [congruence|]); intros idx Hin.
  - rewrite H0 in Hin.
    destruct (Hent _ idx Hc Hin) as (q & a0 & a1 & e & Hq & -> & _ & ->).
    unfold feq. cbn [feqb]. apply Qeq_bool_iff.
    rewrite Hq, Hsig. ring.
  - rewrite H1 in Hin.
    destruct (Hent _ idx Hc Hin) as (q & a0 & a1 & e & Hq & _ & -> & ->).
    unfold feq. cbn [feqb]. apply Qeq_bool_iff.
    rewrite Hq, Hsig. ring.
Qed.

(** C8, as the code has it.  For batches of shape [B; n; n; D] and a
    time vector of [k] values: the call is rejected with a shape error
    when [k] differs from [B] and neither of them is 1; a time vector of
    one value is broadcast over a batch of at least one sample (the one
    value weights every sample), and a batch of one sample is broadcast
    over a time vector of at least one value (the result has [k]
    samples, sample [r] being the one sample of the batch weighted by
    time value [r]). *)
Theorem sample_conditional_pt_time_length (draw : list nat -> Q)
    (x0 x1 t : tensor) (B n D k : nat) :
  shape x0 = [B; n; n; D] -> shape x1 = [B; n; n; D] -> shape t = [k] ->
  0 < n ->
  (k <> B -> k <> 1 -> B <> 1 ->
   sample_conditional_pt MATRIX_PAD device_available self draw x0 x1 t
   = Err ShapeError) /\
  (k = 1 -> 0 < B ->
   exists out (eps : nat -> nat -> nat -> nat -> Q),
     sample_conditional_pt MATRIX_PAD device_available self draw x0 x1 t
     = Ok out /\
     shape out = [B; n; n; D] /\
     forall b i j d, b < B -> i < n -> j < n -> d < D ->
       elem out [b; i; j; d] =
       fadd (fadd (fmul (elem t [0]) (elem x1 [b; i; j; d]))
                  (fmul (fsub (Fin 1%Q) (elem t [0]))
                        (elem x0 [b; i; j; d])))
            (Fin (eps b i j d * sigma self)%Q) /\
       (eps b i j d == eps b j i d)%Q) /\
  (B = 1 -> 0 < k ->
   exists out (eps : nat -> nat -> nat -> nat -> Q),
     sample_conditional_pt MATRIX_PAD device_available self draw x0 x1 t
     = Ok out /\
     shape out = [k; n; n; D] /\
     forall r i j d, r < k -> i < n -> j < n -> d < D ->
       elem out [r; i; j; d] =
       fadd (fadd (fmul (elem t [r]) (elem x1 [0; i; j; d]))
                  (fmul (fsub (Fin 1%Q) (elem t [r]))
                        (elem x0 [0; i; j; d])))
            (Fin (eps r i j d * sigma self)%Q) /\
       (eps r i j d == eps r j i d)%Q).
Proof.
  intros H0 H1 Ht Hn. split; [|split].
  - intros Hkb Hk HB.
    apply (@sample_conditional_pt_mismatch draw x0 x1 t B n D k H0 H1 Ht).
    now apply bdim_mismatch.
  - intros -> HB.
    destruct (@sample_conditional_pt_entries draw x0 x1 t B n D 1 B
                H0 H1 Ht (bdim_one_l B) HB Hn)
      as (out & eps & Hout & Hos & He).
    exists out, eps. split; [exact Hout|]. split; [exact Hos|].
    intros b i j d Hb Hi Hj Hd.
    destruct (He b i j d Hb Hi Hj Hd) as [E Hsym].
    split; [|exact Hsym].
    rewrite E, (pdim_lt Hb). reflexivity.
  - intros -> Hk.
    destruct (@sample_conditional_pt_entries draw x0 x1 t 1 n D k k
                H0 H1 Ht (bdim_one_r k) Hk Hn)
      as (out & eps & Hout & Hos & He).
    exists out, eps. split; [exact Hout|]. split; [exact Hos|].
    intros r i j d Hr Hi Hj Hd.
    destruct (He r i j d Hr Hi Hj Hd) as [E Hsym].
    split; [|exact Hsym].
    rewrite E, (pdim_lt Hr). reflexivity.
Qed.

End PathSampler.

(* ================================================================== *)
(** ** Conditional vector field *)

Section VectorField.

(** C7.  For batches [x0] and [x1] of one shape,
    [compute_conditional_vector_field] returns [x1 - x0] entry by entry
    (it reads no time, mask or [sigma]), and for finite entries
    the field from [x0] to [x1] is the negation of the field from [x1]
    to [x0]. *)
Theorem vector_field_antisymmetric (x0 x1 : tensor) :
  shape x0 = shape x1 -> finite x0 = true -> finite x1 = true ->
  exists u v,
    compute_conditional_vector_field x0 x1 = Ok u /\
    compute_conditional_vector_field x1 x0 = Ok v /\
    shape u = shape x0 /\ shape v = shape x0 /\
    forall idx, in_range (shape x0) idx ->
      elem u idx = fsub (elem x1 idx) (elem x0 idx) /\
      feq (elem u idx) (elem (tneg v) idx).
Proof.
  intros Hs Hf0 Hf1. unfold compute_conditional_vector_field, tsub.
  destruct (@binop_same fsub x1 x0 (shape x0) (eq_sym Hs) eq_refl)
    as (u & -> & Hus & Hue).
  destruct (@binop_same fsub x0 x1 (shape x0) eq_refl (eq_sym Hs))
    as (v & -> & Hvs & Hve).
  exists u, v. repeat (split; [first [reflexivity | assumption]|]).
  intros idx Hin. split; [now apply Hue|].
  cbn [tneg tmap elem]. rewrite (Hue idx Hin), (Hve idx Hin).
  destruct (@finite_entry x0 idx Hf0 Hin) as (a0 & ->).
  destruct (@finite_entry x1 idx Hf1) as (a1 & ->);
    [now rewrite <- Hs|].
  unfold feq. cbn. apply Qeq_bool_iff. ring.
Qed.

End VectorField.

(* ================================================================== *)
(** ** Construction *)

Section Construction.

(** C9, as the code has it.  The constructor validates nothing: for
    every configuration, a non-positive [sigma] or an unknown device
    included, it returns a matcher that holds the configuration and its
    device, noise scale and feature dimension unchanged.  A device the
    runtime does not know is rejected only when [zero_centered_noise]
    first moves its draw to it. *)
Theorem init_accepts_every_configuration (a : Config.args) :
  exists m, __init__ a = Ok m /\
    args m = a /\ device m = Config.device a /\
    sigma m = Config.sigma a /\ dim m = Config.emb_dim a /\
    forall (device_available : string -> bool) draw size M,
      device_available (Config.device a) = false ->
      zero_centered_noise device_available m draw size M
      = Err DeviceError.
Proof.
  eexists. split; [reflexivity|]. cbn [args device sigma dim].
  repeat (split; [reflexivity|]).
  intros av draw size M Hdev.
  unfold zero_centered_noise, to_device. cbn [device].
  now rewrite Hdev.
Qed.

End Construction.

(* ================================================================== *)
(** ** Further properties of the zero-centering primitive *)

Section ZeroCenterMore.
Local Open Scope Q_scope.

(** A 0/1 tensor whose entries sum to zero is zero everywhere. *)
Lemma mask_sum_zero_entries (m : tensor) :
  is_mask m = true -> feq (item (tsum m)) (Fin 0) ->
  forall idx, in_range (shape m) idx ->
    exists q, elem m idx = Fin q /\ q == 0.
Proof.
  intros Hm Hz idx Hin.
  rewrite (tsum_finite m (is_mask_finite m Hm)) in Hz.
  unfold feq in Hz. cbn [feqb] in Hz. apply Qeq_bool_iff in Hz.
  assert (Hnn : forall i, In i (indices (shape m)) -> 0 <= qv (elem m i)).
  { intros i Hi. apply in_indices_range in Hi.
    pose proof (proj1 (all_entries_spec _ _) Hm i Hi) as Hb.
    apply bit_cases in Hb as (q & -> & [Hq|Hq]); cbn [qv]; lra. }
  pose proof (@qsum_ge_member _ (fun i => qv (elem m i)) (indices (shape m))
                idx Hnn (proj2 (in_indices_range _ _) Hin)) as Hle.
  specialize (Hnn idx (proj2 (in_indices_range _ _) Hin)).
  pose proof (proj1 (all_entries_spec _ _) Hm idx Hin) as Hb.
  apply bit_cases in Hb as (q & Hq & _).
  exists q. split; [exact Hq|].
  cbn beta in Hle. rewrite Hq in Hle, Hnn. cbn [qv] in *.
  unfold qentries in Hz. lra.
Qed.

Lemma fdiv_by_zero_not_finite (v : fl) (n : Q) :
  n == 0 -> is_fin (fdiv v (Fin n)) = false.
Proof.
  intros Hn. apply Qeq_bool_iff in Hn as Hb.
  assert (Hle : Qle_bool 0 n = true) by (apply Qle_bool_iff; lra).
  destruct v as [p| | |]; cbn [fdiv]; rewrite ?Hb, ?Hle;
    [destruct (qsign p)| | |]; reflexivity.
Qed.

Lemma fmul_not_finite_zero (v : fl) (q : Q) :
  is_fin v = false -> q == 0 -> fmul v (Fin q) = NaN.
Proof.
  intros Hv Hq. apply Qeq_alt in Hq.
  destruct v as [p| | |]; try discriminate Hv; cbn [fmul];
    unfold inf_scaled, qsign; rewrite ?Hq; reflexivity.
Qed.

Lemma fsub_nan (a : fl) : fsub a NaN = NaN.
Proof. destruct a; reflexivity. Qed.

(** X1.  Centering twice is centering once: on a tensor with finite
    entries and a 0/1 mask of the same shape with positive sum, a second
    application of [zero_center_func] with the same mask returns the
    entries of the first. *)
Theorem zero_center_func_idempotent (x m : tensor) :
  shape x = shape m -> is_mask m = true -> finite x = true ->
  0 < qv (item (tsum m)) ->
  exists out again,
    zero_center_func x m = Ok out /\
    zero_center_func out m = Ok again /\
    shape again = shape x /\
    forall idx, in_range (shape x) idx ->
      feq (elem again idx) (elem out idx).
Proof.
  intros Hs Hm Hx HN.
  destruct (zero_center_func_finite x m Hs Hm Hx HN)
    as (out & Hout & Hos & He).
  assert (Hfo : finite out = true).
  { apply all_entries_spec. intros idx Hin. rewrite Hos in Hin.
    now rewrite (He idx Hin). }
  assert (Hso : shape out = shape m) by congruence.
  destruct (zero_center_func_finite out m Hso Hm Hfo HN)
    as (again & Hagain & Has & Hae).
  pose proof (is_mask_finite m Hm) as Hmf.
  rewrite (tsum_finite m Hmf) in HN. cbn [qv] in HN.
  assert (Hzero : qsum (qentries out) == 0).
  { unfold qentries at 1. rewrite Hos.
    rewrite (qsum_ext _
      (fun idx => qv (elem x idx)
                  - qsum (qentries x) / qsum (qentries m)
                    * qv (elem m idx))).
    - rewrite qsum_linear. fold (qentries x).
      assert (E : qsum (map (fun idx => qv (elem m idx))
                            (indices (shape x))) == qsum (qentries m))
        by (unfold qentries; rewrite Hs; reflexivity).
      rewrite E. field. lra.
    - intros idx Hin. apply in_indices_range in Hin.
      rewrite (He idx Hin). reflexivity. }
  exists out, again. split; [exact Hout|]. split; [exact Hagain|].
  split; [congruence|].
  intros idx Hin.
  rewrite Hae by (rewrite Hos; exact Hin).
  rewrite (He idx Hin). unfold feq. cbn [feqb qv].
  apply Qeq_bool_iff. rewrite Hzero. unfold Qdiv. ring.
Qed.

(** X2.  With a 0/1 mask that is zero everywhere nothing is raised:
    whatever the tensor holds, [zero_center_func] returns a tensor of the
    same shape that is NaN at every position. *)
Theorem zero_center_func_empty_mask (x m : tensor) :
  shape x = shape m -> is_mask m = true ->
  feq (item (tsum m)) (Fin 0) ->
  exists out, zero_center_func x m = Ok out /\ shape out = shape x /\
    forall idx, in_range (shape x) idx -> elem out idx = NaN.
Proof.
  intros Hs Hm Hz.
  destruct (zero_center_func_entries x m Hs) as (out & Hout & Hos & He).
  exists out. split; [exact Hout|]. split; [exact Hos|].
  intros idx Hin. rewrite (He idx Hin).
  destruct (@mask_sum_zero_entries m Hm Hz idx) as (q & -> & Hq);
    [rewrite <- Hs; exact Hin|].
  rewrite (tsum_finite m (is_mask_finite m Hm)) in Hz |- *.
  unfold feq in Hz. cbn [feqb] in Hz. apply Qeq_bool_iff in Hz.
  rewrite fmul_not_finite_zero;
    [apply fsub_nan | now apply fdiv_by_zero_not_finite | exact Hq].
Qed.

End ZeroCenterMore.

(* ================================================================== *)
(** ** Further properties of the masked noise *)

Section MaskedNoiseMore.
Local Open Scope Q_scope.

Variable device_available : String.string -> bool.
Variable self : ConditionalFlowMatcher.
Hypothesis device_ok : device_available (device self) = true.

(** The noise under a 0/1 mask is finite, and over every sample the
    products of noise and mask sum to zero. *)
Lemma zero_centered_noise_centered (draw : list nat -> Q) (M : tensor)
    (B : nat) (s : list nat) :
  shape M = B :: s -> (0 < B)%nat -> is_mask M = true ->
  exists out,
    zero_centered_noise device_available self draw (shape M) M = Ok out /\
    shape out = shape M /\
    (forall b i, in_range (shape M) (b :: i) ->
       exists o, elem out (b :: i) = Fin o) /\
    forall b, (b < B)%nat ->
      qsum (map (fun i => qv (elem out (b :: i)) * qv (elem M (b :: i)))
                (indices s)) == 0.
Proof.
  intros HM HB Hmask.
  destruct (@zero_centered_noise_mask_entries device_available self
              device_ok draw M B s HM HB Hmask) as (out & Hout & Hos & He).
  exists out. split; [exact Hout|]. split; [exact Hos|].
  (* every entry, times its mask *)
  assert (Hent : forall b i, in_range (shape M) (b :: i) ->
            exists o mq, elem out (b :: i) = Fin o /\
              elem M (b :: i) = Fin mq /\
              o * mq == draw (b :: i) * mq
                        - masked_draw_total draw M b / mask_count M b * mq).
  { intros b i Hin.
    destruct (He b i Hin) as [H0 H1].
    destruct (@is_mask_entry M (b :: i) Hmask Hin) as (mq & Hmq & [Hq|Hq]).
    - exists fill_value, mq. split; [|split; [exact Hmq|]].
      + apply H0. rewrite Hmq. unfold feq. cbn [feqb].
        now apply Qeq_bool_iff.
      + rewrite Hq. ring.
    - destruct H1 as (_ & o & Ho & Hval).
      + rewrite Hmq. unfold feq. cbn [feqb]. now apply Qeq_bool_iff.
      + exists o, mq. split; [exact Ho|]. split; [exact Hmq|].
        rewrite Hval. ring. }
  split.
  { intros b i Hin. destruct (Hent b i Hin) as (o & _ & Ho & _).
    now exists o. }
  intros b Hb.
  set (c := masked_draw_total draw M b / mask_count M b).
  rewrite (qsum_ext _
    (fun i => draw (b :: i) * qv (elem M (b :: i))
              - c * qv (elem M (b :: i)))).
  - rewrite qsum_linear.
    assert (ET : qsum (map (fun i => draw (b :: i) * qv (elem M (b :: i)))
                           (indices s)) = masked_draw_total draw M b)
      by (unfold masked_draw_total; now rewrite HM).
    assert (EN : qsum (map (fun i => qv (elem M (b :: i))) (indices s))
                 = mask_count M b)
      by (unfold mask_count; now rewrite HM).
    rewrite ET, EN. unfold c.
    destruct (Qeq_dec (mask_count M b) 0) as [HN|HN].
    + (* no valid position: the masked draws sum to zero as well *)
      assert (HT : masked_draw_total draw M b == 0).
      { rewrite <- ET. apply qsum_zero. intros i Hi.
        pose proof (mask_count_nonneg M HM Hmask Hb) as Hnn.
        pose proof (@qsum_ge_member _ (fun i => qv (elem M (b :: i)))
                      (indices s) i Hnn Hi) as Hle.
        specialize (Hnn i Hi). cbn beta in Hle.
        rewrite EN, HN in Hle.
        assert (E0 : qv (elem M (b :: i)) == 0) by lra.
        rewrite E0. ring. }
      rewrite HT, HN. unfold Qdiv. ring.
    + field. exact HN.
  - intros i Hi. apply in_indices_range in Hi.
    destruct (Hent b i) as (o & mq & -> & -> & Hval).
    + rewrite HM. now apply in_range_cons.
    + cbn [qv]. exact Hval.
Qed.

(** X3.  The noise is centered on the valid positions of every sample:
    for a 0/1 mask of the requested size over a batch of at least one
    sample, the noise of a sample weighted by the mask of that sample
    sums, in exact arithmetic, to zero (also for a sample without any
    valid position). *)
Theorem zero_centered_noise_zero_mean (draw : list nat -> Q) (M : tensor)
    (B : nat) (s : list nat) :
  shape M = B :: s -> (0 < B)%nat -> is_mask M = true ->
  exists out,
    zero_centered_noise device_available self draw (shape M) M = Ok out /\
    forall b, (b < B)%nat ->
      exists q, masked_total (unbind0 b M) (unbind0 b out) = Ok (Fin q) /\
                q == 0.
Proof.
  intros HM HB Hmask.
  destruct (zero_centered_noise_centered draw M HM HB Hmask)
    as (out & Hout & Hos & Hfin & Hsum).
  exists out. split; [exact Hout|].
  intros b Hb. unfold masked_total, tmul.
  destruct (@binop_same fmul (unbind0 b out) (unbind0 b M) s)
    as (w & -> & Hws & Hwe).
  { cbn [unbind0 shape]. now rewrite Hos, HM. }
  { cbn [unbind0 shape]. now rewrite HM. }
  cbn [bind].
  exists (qsum (map (fun i => qv (elem out (b :: i)) * qv (elem M (b :: i)))
                    (indices s))).
  split; [|now apply Hsum].
  f_equal. unfold tsum, item, scalar. cbn [elem]. rewrite Hws.
  apply fsum_map_fin. intros i Hi. apply in_indices_range in Hi.
  assert (Hin : in_range (shape M) (b :: i))
    by (rewrite HM; now apply in_range_cons).
  rewrite (Hwe i Hi). cbn [unbind0 elem].
  destruct (Hfin b i Hin) as (o & ->).
  destruct (@is_mask_entry M (b :: i) Hmask Hin) as (mq & -> & _).
  reflexivity.
Qed.

(** A batch without any sample is rejected by the map over the batch. *)
Lemma zero_centered_noise_empty_batch (draw : list nat -> Q) (M : tensor)
    (s : list nat) :
  shape M = 0%nat :: s ->
  zero_centered_noise device_available self draw (shape M) M
  = Err IndexError.
Proof.
  intros HM. unfold zero_centered_noise, to_device.
  rewrite device_ok. cbn [bind]. rewrite HM. unfold tmul.
  destruct (@binop_same fmul (randn (0%nat :: s) draw) M (0%nat :: s)
              eq_refl HM) as (xb & -> & Hxs & _).
  cbn [bind]. unfold vmap2. rewrite Hxs, HM. reflexivity.
Qed.

Lemma qsum_shift {I : Type} (f g : I -> Q) (c : Q) (l : list I) :
  qsum (map (fun i => (f i + c) * g i) l)
  == qsum (map (fun i => f i * g i) l) + c * qsum (map g l).
Proof.
  rewrite (qsum_ext _ (fun i => f i * g i - (- c) * g i))
    by (intros; ring).
  rewrite qsum_linear. ring.
Qed.

(** X4.  The noise does not depend on the level of the draw: in exact
    arithmetic, adding to the draw a constant of its own for every
    sample leaves the noise returned under a 0/1 mask over a batch of at
    least one sample unchanged at every position. *)
Theorem zero_centered_noise_shift_invariant (draw : list nat -> Q)
    (c : nat -> Q) (M : tensor) (B : nat) (s : list nat) :
  shape M = B :: s -> (0 < B)%nat -> is_mask M = true ->
  exists out out',
    zero_centered_noise device_available self draw (shape M) M = Ok out /\
    zero_centered_noise device_available self
      (fun idx => draw idx + c (hd 0%nat idx)) (shape M) M = Ok out' /\
    forall b idx, in_range (shape M) (b :: idx) ->
      feq (elem out' (b :: idx)) (elem out (b :: idx)).
Proof.
  intros HM HB Hmask.
  set (draw' := fun idx => draw idx + c (hd 0%nat idx)).
  destruct (@zero_centered_noise_mask_entries device_available self
              device_ok draw M B s HM HB Hmask) as (out & Hout & _ & He).
  destruct (@zero_centered_noise_mask_entries device_available self
              device_ok draw' M B s HM HB Hmask)
    as (out' & Hout' & _ & He').
  exists out, out'. split; [exact Hout|]. split; [exact Hout'|].
  intros b idx Hin.
  destruct (He b idx Hin) as [H0 H1].
  destruct (He' b idx Hin) as [H0' H1'].
  destruct (@is_mask_entry M (b :: idx) Hmask Hin) as (mq & Hmq & [Hq|Hq]).
  - assert (Hz : feq (elem M (b :: idx)) (Fin 0))
      by (rewrite Hmq; unfold feq; cbn [feqb]; now apply Qeq_bool_iff).
    rewrite (H0 Hz), (H0' Hz). reflexivity.
  - assert (Hone : feq (elem M (b :: idx)) (Fin 1))
      by (rewrite Hmq; unfold feq; cbn [feqb]; now apply Qeq_bool_iff).
    destruct (H1 Hone) as (HN & o & -> & Ho).
    destruct (H1' Hone) as (_ & o' & -> & Ho').
    unfold feq. cbn [feqb]. apply Qeq_bool_iff.
    rewrite Ho, Ho'.
    assert (ET : masked_draw_total draw' M b
                 == masked_draw_total draw M b + c b * mask_count M b).
    { unfold masked_draw_total, mask_count, draw'. cbn [hd].
      apply qsum_shift. }
    rewrite ET. unfold draw'. cbn [hd]. field. lra.
Qed.

(** Masks and draws that agree on a sample have the same two totals
    there. *)
Lemma sample_sums_agree (draw draw' : list nat -> Q) (M M' : tensor)
    (B b : nat) (s : list nat) :
  shape M = B :: s -> shape M' = B :: s ->
  (forall idx, in_range s idx ->
     elem M (b :: idx) = elem M' (b :: idx) /\
     draw (b :: idx) = draw' (b :: idx)) ->
  sample_mask_sum M' b = sample_mask_sum M b /\
  sample_noise_sum draw' M' b = sample_noise_sum draw M b.
Proof.
  intros HM HM' Hagree. split.
  - unfold sample_mask_sum, tsum, item, scalar.
    cbn [elem unbind0 shape]. rewrite HM, HM'. cbn [tl]. f_equal.
    apply map_ext_in. intros i Hi. apply in_indices_range in Hi.
    symmetry. now apply Hagree.
  - unfold sample_noise_sum. rewrite HM, HM'. cbn [tl]. f_equal.
    apply map_ext_in. intros i Hi. apply in_indices_range in Hi.
    destruct (Hagree i Hi) as [<- <-]. reflexivity.
Qed.

(** X5.  No sample reads another one: when two masks of one shape and
    two draws agree on the positions of sample [b], the noise returned
    for the one and for the other agree on every position of sample
    [b], whatever the other samples hold. *)
Theorem zero_centered_noise_sample_local (draw draw' : list nat -> Q)
    (M M' : tensor) (B b : nat) (s : list nat) :
  shape M = B :: s -> shape M' = B :: s -> (b < B)%nat ->
  (forall idx, in_range s idx ->
     elem M (b :: idx) = elem M' (b :: idx) /\
     draw (b :: idx) = draw' (b :: idx)) ->
  exists out out',
    zero_centered_noise device_available self draw (shape M) M = Ok out /\
    zero_centered_noise device_available self draw' (shape M') M'
    = Ok out' /\
    forall idx, in_range s idx ->
      elem out (b :: idx) = elem out' (b :: idx).
Proof.
  intros HM HM' Hb Hagree.
  assert (HB : (0 < B)%nat) by lia.
  destruct (@zero_centered_noise_entries device_available self device_ok
              draw M B s HM HB) as (out & Hout & _ & He).
  destruct (@zero_centered_noise_entries device_available self device_ok
              draw' M' B s HM' HB) as (out' & Hout' & _ & He').
  exists out, out'. split; [exact Hout|]. split; [exact Hout'|].
  intros idx Hidx.
  rewrite He by (rewrite HM; now apply in_range_cons).
  rewrite He' by (rewrite HM'; now apply in_range_cons).
  destruct (sample_sums_agree draw draw' M M' b HM HM' Hagree) as [-> ->].
  destruct (Hagree idx Hidx) as [<- <-]. reflexivity.
Qed.

End MaskedNoiseMore.

(* ================================================================== *)
(** ** Sums over the indices of a shape *)

Section IndexSums.
Local Open Scope Q_scope.

Lemma qsum_app (l1 l2 : list Q) : qsum (l1 ++ l2) == qsum l1 + qsum l2.
Proof.
  unfold qsum.
  induction l1 as [|a l1 IH]; cbn [app fold_right]; [ring|].
  rewrite IH. ring.
Qed.

Lemma qsum_flat_map {A C : Type} (f : C -> Q) (h : A -> list C)
    (l : list A) :
  qsum (map f (flat_map h l))
  == qsum (map (fun a => qsum (map f (h a))) l).
Proof.
  induction l as [|a l IH]; cbn [flat_map map qsum fold_right];
    [reflexivity|].
  rewrite map_app, qsum_app.
  fold (qsum (map (fun a => qsum (map f (h a))) l)).
  rewrite IH. reflexivity.
Qed.

Lemma qsum_indices_cons (f : list nat -> Q) (n : nat) (s : list nat) :
  qsum (map f (indices (n :: s)))
  == qsum (map (fun i => qsum (map (fun r => f (i :: r)) (indices s)))
               (seq 0 n)).
Proof.
  cbn [indices]. rewrite qsum_flat_map.
  apply qsum_ext. intros i _. now rewrite map_map.
Qed.

Lemma qsum_add {A : Type} (f g : A -> Q) (l : list A) :
  qsum (map (fun i => f i + g i) l) == qsum (map f l) + qsum (map g l).
Proof.
  rewrite (qsum_ext _ (fun i => f i - (- (1)) * g i)) by (intros; ring).
  rewrite qsum_linear. ring.
Qed.

Lemma qsum_exchange {A C : Type} (g : A -> C -> Q) (l1 : list A)
    (l2 : list C) :
  qsum (map (fun i => qsum (map (fun j => g i j) l2)) l1)
  == qsum (map (fun j => qsum (map (fun i => g i j) l1)) l2).
Proof.
  induction l1 as [|a l1 IH]; cbn [map qsum fold_right].
  - symmetry. apply qsum_zero. intros; reflexivity.
  - fold (qsum (map (fun i => qsum (map (fun j => g i j) l2)) l1)).
    rewrite IH, <- qsum_add. apply qsum_ext. intros j _.
    cbn [map qsum fold_right]. reflexivity.
Qed.

(** A sum over the indices of a rank-3 shape, axis by axis. *)
Lemma qsum_indices3 (f : list nat -> Q) (n m D : nat) :
  qsum (map f (indices [n; m; D]))
  == qsum (map (fun i =>
       qsum (map (fun j =>
         qsum (map (fun d => f [i; j; d]) (seq 0 D))) (seq 0 m)))
       (seq 0 n)).
Proof.
  rewrite qsum_indices_cons. apply qsum_ext. intros i _.
  rewrite qsum_indices_cons. apply qsum_ext. intros j _.
  rewrite qsum_indices_cons. apply qsum_ext. intros d _.
  cbn [indices map qsum fold_right]. ring.
Qed.

(** Exchanging the two node axes of the index does not change a sum over
    a shape whose node axes have one size. *)
Lemma qsum_indices_swap (f : list nat -> Q) (n D : nat) :
  qsum (map (fun idx => match idx with
                        | [i; j; d] => f [j; i; d]
                        | _ => 0
                        end) (indices [n; n; D]))
  == qsum (map f (indices [n; n; D])).
Proof.
  rewrite !qsum_indices3. cbn beta iota.
  apply (qsum_exchange
           (fun i j => qsum (map (fun d => f [j; i; d]) (seq 0 D)))).
Qed.

End IndexSums.

(* ================================================================== *)
(** ** Further properties of the symmetric matrix noise *)

Section BEMatrixMore.

Variable MATRIX_PAD : Q.
Variable device_available : String.string -> bool.
Variable self : ConditionalFlowMatcher.

(** X6.  A matrix of rank below 3, or one whose column axis is empty,
    is rejected with an index error: no mask can be read off column 0. *)
Theorem sample_be_matrix_index_error (draw : list nat -> Q)
    (matrix : tensor) :
  nth_error (shape matrix) 2 = None \/ nth_error (shape matrix) 2 = Some 0 ->
  sample_be_matrix MATRIX_PAD device_available self draw matrix
  = Err IndexError.
Proof.
  intros [H|H]; unfold sample_be_matrix, select; rewrite H; reflexivity.
Qed.

(** The first half of [sample_be_matrix]: the pairwise mask, which is 1
    exactly at the valid node pairs, and what is left to run. *)
Lemma sample_be_matrix_steps (draw : list nat -> Q) (matrix : tensor)
    (B n D : nat) :
  shape matrix = [B; n; n; D] -> 0 < n ->
  exists masks,
    shape masks = [B; n; n; D] /\ is_mask masks = true /\
    (forall b i j d, b < B -> i < n -> j < n -> d < D ->
       elem masks [b; i; j; d]
       = of_bool (pair_valid MATRIX_PAD matrix b i j d)) /\
    sample_be_matrix MATRIX_PAD device_available self draw matrix
    = (noise <- zero_centered_noise device_available self draw
                  (shape masks) masks ;;
       noise_t <- transpose 1 2 noise ;;
       both <- tadd noise noise_t ;;
       tadd matrix
            (tmap (fun v => fmul v (Fin (sigma self)))
                  (tmap (fmul (Fin (1 # 2)%Q)) both))).
Proof.
  intros Hs Hn. unfold sample_be_matrix, select.
  rewrite Hs. cbn [nth_error]. rewrite (proj2 (Nat.ltb_lt 0 n) Hn).
  cbn [bind remove_at]. unfold unsqueeze, ndim, ne_scalar, tmap.
  cbn [shape length Nat.leb bind insert_at elem]. unfold tmul at 1, binop.
  cbn [shape]. rewrite broadcast_outer. cbn [bind elem].
  match goal with
  | |- context [long ?t] => set (masks := long t)
  end.
  assert (Hme : forall b i j d, b < B -> i < n -> j < n -> d < D ->
            elem masks [b; i; j; d]
            = of_bool (pair_valid MATRIX_PAD matrix b i j d)).
  { intros b i j d Hb Hi Hj Hd. unfold masks, long, tmap. cbn [elem].
    rewrite trunc_bits. unfold expand_index.
    cbn [rev app proj_rev remove_at insert_at].
    rewrite !pdim_lt by assumption. reflexivity. }
  exists masks. split; [reflexivity|]. split; [|split; [exact Hme|]].
  - apply all_entries_spec. intros idx Hin.
    change (shape masks) with [B; n; n; D] in Hin.
    apply in_range4 in Hin as (b & i & j & d & -> & Hb & Hi & Hj & Hd).
    rewrite Hme by assumption. apply bit_of_bool.
  - reflexivity.
Qed.

(** The second half: the noise averaged with its transpose, scaled and
    added. *)
Lemma symmetrise_and_add (matrix noise : tensor) (B n D : nat) :
  shape matrix = [B; n; n; D] -> shape noise = [B; n; n; D] ->
  exists out,
    (noise_t <- transpose 1 2 noise ;;
     both <- tadd noise noise_t ;;
     tadd matrix
          (tmap (fun v => fmul v (Fin (sigma self)))
                (tmap (fmul (Fin (1 # 2)%Q)) both))) = Ok out /\
    shape out = [B; n; n; D] /\
    forall b i j d, b < B -> i < n -> j < n -> d < D ->
      elem out [b; i; j; d] =
        fadd (elem matrix [b; i; j; d])
             (fmul (fmul (Fin (1 # 2)%Q)
                         (fadd (elem noise [b; i; j; d])
                               (elem noise [b; j; i; d])))
                   (Fin (sigma self))).
Proof.
  intros Hs Hns. unfold transpose, ndim. rewrite Hns.
  cbn [length Nat.ltb Nat.leb andb bind]. unfold tadd.
  match goal with
  | |- context [binop fadd noise ?t] =>
      destruct (@binop_same fadd noise t [B; n; n; D] Hns eq_refl)
        as (both & -> & Hbs & Hbe)
  end.
  cbn [bind].
  match goal with
  | |- context [binop fadd matrix ?t] =>
      destruct (@binop_same fadd matrix t [B; n; n; D] Hs Hbs)
        as (out & -> & Hos & Hoe)
  end.
  exists out. split; [reflexivity|]. split; [exact Hos|].
  intros b i j d Hb Hi Hj Hd.
  pose proof (in_range4_intro Hb Hi Hj Hd) as Hin.
  rewrite (Hoe _ Hin). cbn [tmap elem]. rewrite (Hbe _ Hin).
  reflexivity.
Qed.

(** X7.  With a device the runtime does not know, [sample_be_matrix] on
    a well-formed matrix fails with a device error: the masks are built,
    and the draw cannot be moved to the device. *)
Theorem sample_be_matrix_unknown_device (draw : list nat -> Q)
    (matrix : tensor) (B n D : nat) :
  device_available (device self) = false ->
  shape matrix = [B; n; n; D] -> 0 < n ->
  sample_be_matrix MATRIX_PAD device_available self draw matrix
  = Err DeviceError.
Proof.
  intros Hdev Hs Hn.
  destruct (sample_be_matrix_steps draw matrix Hs Hn)
    as (masks & _ & _ & _ & ->).
  unfold zero_centered_noise, to_device. now rewrite Hdev.
Qed.

Hypothesis device_ok : device_available (device self) = true.

(** The two halves together, with the mask and the noise named. *)
Lemma sample_be_matrix_parts (draw : list nat -> Q) (matrix : tensor)
    (B n D : nat) :
  shape matrix = [B; n; n; D] -> 0 < B -> 0 < n ->
  exists masks noise out,
    shape masks = [B; n; n; D] /\ is_mask masks = true /\
    (forall b i j d, b < B -> i < n -> j < n -> d < D ->
       elem masks [b; i; j; d]
       = of_bool (pair_valid MATRIX_PAD matrix b i j d)) /\
    zero_centered_noise device_available self draw (shape masks) masks
    = Ok noise /\
    shape noise = [B; n; n; D] /\
    sample_be_matrix MATRIX_PAD device_available self draw matrix = Ok out /\
    shape out = [B; n; n; D] /\
    forall b i j d, b < B -> i < n -> j < n -> d < D ->
      elem out [b; i; j; d] =
        fadd (elem matrix [b; i; j; d])
             (fmul (fmul (Fin (1 # 2)%Q)
                         (fadd (elem noise [b; i; j; d])
                               (elem noise [b; j; i; d])))
                   (Fin (sigma self))).
Proof.
  intros Hs HB Hn.
  destruct (sample_be_matrix_steps draw matrix Hs Hn)
    as (masks & Hms & Hmask & Hme & Hrun).
  destruct (@zero_centered_noise_entries device_available self device_ok
              draw masks B [n; n; D] Hms HB) as (noise & Hnoise & Hns & _).
  rewrite Hms in Hns.
  destruct (symmetrise_and_add matrix noise Hs Hns)
    as (out & Hout & Hos & Hoe).
  exists masks, noise, out.
  repeat (split; [assumption|]).
  split; [|split; [exact Hos|exact Hoe]].
  rewrite Hrun, Hnoise. cbn [bind]. exact Hout.
Qed.

(** X8.  With noise scale 0, [sample_be_matrix] returns a matrix of at
    least one sample with finite entries unchanged, whatever is drawn
    (in exact arithmetic). *)
Theorem sample_be_matrix_sigma_zero (draw : list nat -> Q)
    (matrix : tensor) (B n D : nat) :
  shape matrix = [B; n; n; D] -> 0 < B -> 0 < n -> finite matrix = true ->
  (sigma self == 0)%Q ->
  exists out,
    sample_be_matrix MATRIX_PAD device_available self draw matrix = Ok out /\
    shape out = shape matrix /\
    forall idx, in_range (shape matrix) idx ->
      feq (elem out idx) (elem matrix idx).
Proof.
  intros Hs HB Hn Hf Hsig.
  destruct (@sample_be_matrix_perturbation MATRIX_PAD device_available
              self device_ok draw matrix B n D Hs HB Hn)
    as (out & eps & Hout & Hos & He).
  exists out. split; [exact Hout|]. split; [congruence|].
  intros idx Hin.
  destruct (@finite_entry matrix idx Hf Hin) as (a & Ha).
  rewrite Hs in Hin.
  apply in_range4 in Hin as (b & i & j & d & -> & Hb & Hi & Hj & Hd).
  destruct (He b i j d Hb Hi Hj Hd) as (-> & _).
  rewrite Ha. unfold feq. cbn [fadd feqb]. apply Qeq_bool_iff.
  rewrite Hsig. ring.
Qed.

(** X9.  The NaN of an empty sample does not reach the output: in
    exact arithmetic (rounding and overflow are not modelled), on a
    matrix of at least one sample with finite entries [sample_be_matrix]
    returns finite entries only, also when a sample of the batch has no
    valid node at all and its mean is 0/0. *)
Theorem sample_be_matrix_finite (draw : list nat -> Q)
    (matrix : tensor) (B n D : nat) :
  shape matrix = [B; n; n; D] -> 0 < B -> 0 < n -> finite matrix = true ->
  exists out,
    sample_be_matrix MATRIX_PAD device_available self draw matrix = Ok out /\
    finite out = true.
Proof.
  intros Hs HB Hn Hf.
  destruct (@sample_be_matrix_perturbation MATRIX_PAD device_available
              self device_ok draw matrix B n D Hs HB Hn)
    as (out & eps & Hout & Hos & He).
  exists out. split; [exact Hout|].
  apply all_entries_spec. intros idx Hin. rewrite Hos in Hin.
  apply in_range4 in Hin as (b & i & j & d & -> & Hb & Hi & Hj & Hd).
  destruct (He b i j d Hb Hi Hj Hd) as (-> & _).
  destruct (@finite_entry matrix [b; i; j; d] Hf) as (a & ->);
    [rewrite Hs; now apply in_range4_intro|].
  reflexivity.
Qed.

(** What is known of the noise once it has been returned. *)
Lemma zero_centered_noise_facts (draw : list nat -> Q) (M noise : tensor)
    (B : nat) (s : list nat) :
  shape M = B :: s -> 0 < B -> is_mask M = true ->
  zero_centered_noise device_available self draw (shape M) M = Ok noise ->
  (forall b i, in_range (shape M) (b :: i) ->
     exists o, elem noise (b :: i) = Fin o) /\
  (forall b, b < B ->
     (qsum (map (fun i => qv (elem noise (b :: i)) * qv (elem M (b :: i)))
                (indices s)) == 0)%Q).
Proof.
  intros HM HB Hmask Hrun.
  destruct (@zero_centered_noise_centered device_available self device_ok
              draw M B s HM HB Hmask) as (out & Hout & _ & Hfin & Hsum).
  rewrite Hout in Hrun. injection Hrun as <-. now split.
Qed.

(** X10.  The noise is read off the padding pattern alone: two matrices
    of one shape, with at least one sample and the same valid nodes,
    receive for one draw the same perturbation at every position,
    whatever their entries are. *)
Theorem sample_be_matrix_noise_ignores_values (draw : list nat -> Q)
    (A A' : tensor) (B n D : nat) :
  shape A = [B; n; n; D] -> shape A' = [B; n; n; D] -> 0 < B -> 0 < n ->
  (forall b i d, b < B -> i < n -> d < D ->
     node_valid MATRIX_PAD A b i d = node_valid MATRIX_PAD A' b i d) ->
  exists out out' (eps : nat -> nat -> nat -> nat -> Q),
    sample_be_matrix MATRIX_PAD device_available self draw A = Ok out /\
    sample_be_matrix MATRIX_PAD device_available self draw A' = Ok out' /\
    forall b i j d, b < B -> i < n -> j < n -> d < D ->
      elem out [b; i; j; d]
      = fadd (elem A [b; i; j; d]) (Fin (eps b i j d * sigma self)%Q) /\
      elem out' [b; i; j; d]
      = fadd (elem A' [b; i; j; d]) (Fin (eps b i j d * sigma self)%Q).
Proof.
  intros Hs Hs' HB Hn Hvalid.
  destruct (sample_be_matrix_parts draw A Hs HB Hn)
    as (M & noise & out & HM & Hmask & Hme & Hnoise & Hns & Hout & _ & He).
  destruct (sample_be_matrix_parts draw A' Hs' HB Hn)
    as (M' & noise' & out' & HM' & Hmask' & Hme' & Hnoise' & Hns' & Hout'
        & _ & He').
  (* the two masks agree, hence the two noises *)
  assert (Hagree : forall b, b < B -> forall idx, in_range [n; n; D] idx ->
            elem M (b :: idx) = elem M' (b :: idx) /\
            draw (b :: idx) = draw (b :: idx)).
  { intros b Hb idx Hin. split; [|reflexivity].
    apply in_range3 in Hin as (i & j & d & -> & Hi & Hj & Hd).
    rewrite Hme, Hme' by assumption. unfold pair_valid.
    now rewrite !Hvalid by assumption. }
  assert (Hsame : forall b i j d, b < B -> i < n -> j < n -> d < D ->
            elem noise' [b; i; j; d] = elem noise [b; i; j; d]).
  { intros b i j d Hb Hi Hj Hd.
    destruct (@zero_centered_noise_entries device_available self device_ok
                draw M B [n; n; D] HM HB) as (o & Ho & _ & Hoe).
    destruct (@zero_centered_noise_entries device_available self device_ok
                draw M' B [n; n; D] HM' HB) as (o' & Ho' & _ & Hoe').
    rewrite Ho in Hnoise. injection Hnoise as <-.
    rewrite Ho' in Hnoise'. injection Hnoise' as <-.
    rewrite Hoe by (rewrite HM; now apply in_range4_intro).
    rewrite Hoe' by (rewrite HM'; now apply in_range4_intro).
    destruct (@sample_sums_agree draw draw M M' B b [n; n; D] HM HM'
                (Hagree b Hb)) as [-> ->].
    destruct (Hagree b Hb [i; j; d]) as [<- _];
      [apply in_range3; exists i, j, d; auto|].
    reflexivity. }
  destruct (@zero_centered_noise_facts draw M noise B [n; n; D] HM HB
              Hmask Hnoise) as [Hfin _].
  exists out, out'.
  exists (fun b i j d =>
            ((1 # 2) * (qv (elem noise [b; i; j; d])
                        + qv (elem noise [b; j; i; d])))%Q).
  split; [exact Hout|]. split; [exact Hout'|].
  intros b i j d Hb Hi Hj Hd.
  rewrite (He b i j d Hb Hi Hj Hd), (He' b i j d Hb Hi Hj Hd).
  rewrite !Hsame by assumption.
  destruct (Hfin b [i; j; d]) as (o1 & ->);
    [rewrite HM; now apply in_range4_intro|].
  destruct (Hfin b [j; i; d]) as (o2 & ->);
    [rewrite HM; now apply in_range4_intro|].
  split; reflexivity.
Qed.

(** X11.  The noise moves no mass: in exact arithmetic, on a matrix of
    at least one sample with finite entries, the sum of the entries of a
    sample over its valid node pairs is the same in the output of
    [sample_be_matrix] as in the input. *)
Theorem sample_be_matrix_preserves_valid_total (draw : list nat -> Q)
    (matrix : tensor) (B n D : nat) :
  shape matrix = [B; n; n; D] -> 0 < B -> 0 < n -> finite matrix = true ->
  exists out,
    sample_be_matrix MATRIX_PAD device_available self draw matrix = Ok out /\
    forall b, b < B ->
      (valid_total MATRIX_PAD matrix out b
       == valid_total MATRIX_PAD matrix matrix b)%Q.
Proof.
  intros Hs HB Hn Hf.
  destruct (sample_be_matrix_parts draw matrix Hs HB Hn)
    as (M & noise & out & HM & Hmask & Hme & Hnoise & Hns & Hout & _ & He).
  destruct (@zero_centered_noise_facts draw M noise B [n; n; D] HM HB
              Hmask Hnoise) as [Hfin Hsum].
  exists out. split; [exact Hout|].
  intros b Hb. unfold valid_total. rewrite Hs. cbn [tl].
  set (nu := fun idx => (qv (elem noise (b :: idx))
                         * qv (elem M (b :: idx)))%Q).
  set (h := (- ((1 # 2) * sigma self))%Q).
  rewrite (qsum_ext _
    (fun idx => (pair_weight MATRIX_PAD matrix (b :: idx)
                 * qv (elem matrix (b :: idx))
                 - h * (nu idx
                        + match idx with
                          | [i; j; d] => nu [j; i; d]
                          | _ => 0
                          end))%Q)).
  - rewrite qsum_linear, qsum_add, qsum_indices_swap.
    unfold nu at 1 2. rewrite (Hsum b Hb). ring.
  - intros idx Hin. apply in_indices_range in Hin.
    apply in_range3 in Hin as (i & j & d & -> & Hi & Hj & Hd).
    rewrite (He b i j d Hb Hi Hj Hd). unfold nu, h.
    rewrite !Hme by assumption.
    destruct (Hfin b [i; j; d]) as (o1 & ->);
      [rewrite HM; now apply in_range4_intro|].
    destruct (Hfin b [j; i; d]) as (o2 & ->);
      [rewrite HM; now apply in_range4_intro|].
    destruct (@finite_entry matrix [b; i; j; d] Hf) as (a & ->);
      [rewrite Hs; now apply in_range4_intro|].
    cbn [fadd fmul qv pair_weight of_bool].
    assert (Hpv : pair_valid MATRIX_PAD matrix b j i d
                  = pair_valid MATRIX_PAD matrix b i j d)
      by (unfold pair_valid; apply andb_comm).
    rewrite Hpv.
    destruct (pair_valid MATRIX_PAD matrix b i j d); ring.
Qed.

End BEMatrixMore.

(* ================================================================== *)
(** ** Further properties of the path sampler and the vector field *)

Section PathSamplerMore.

Variable MATRIX_PAD : Q.
Variable device_available : String.string -> bool.
Variable self : ConditionalFlowMatcher.

(** [sample_conditional_pt] is [sample_be_matrix] on the interpolation,
    whose entries are these. *)
Lemma sample_conditional_pt_steps (draw : list nat -> Q)
    (x0 x1 t : tensor) (B n D k R : nat) :
  shape x0 = [B; n; n; D] -> shape x1 = [B; n; n; D] -> shape t = [k] ->
  bdim k B = Ok R ->
  exists mu,
    shape mu = [R; n; n; D] /\
    (forall r i j d, r < R -> i < n -> j < n -> d < D ->
       elem mu [r; i; j; d] =
       fadd (fmul (elem t [pdim k r]) (elem x1 [pdim B r; i; j; d]))
            (fmul (fsub (Fin 1%Q) (elem t [pdim k r]))
                  (elem x0 [pdim B r; i; j; d]))) /\
    sample_conditional_pt MATRIX_PAD device_available self draw x0 x1 t
    = sample_be_matrix MATRIX_PAD device_available self draw mu.
Proof.
  intros H0 H1 Ht Hbd.
  unfold sample_conditional_pt, ndim, tmul, binop.
  rewrite H0. cbn [length Nat.sub reshape_column shape repeat tmap].
  rewrite Ht, numel_vector, H1, (@broadcast_time k B n D R Hbd).
  cbn [bind shape elem]. unfold tadd, binop. cbn [shape].
  rewrite broadcast_same. cbn [bind].
  match goal with
  | |- context [sample_be_matrix _ _ _ _ ?m] => set (mu := m)
  end.
  exists mu. split; [reflexivity|]. split; [|reflexivity].
  intros r i j d Hr Hi Hj Hd.
  unfold mu. cbn [elem]. unfold expand_index.
  cbn [rev app proj_rev hd].
  destruct (@bdim_pdim k B R r Hbd Hr) as [Hk HB].
  rewrite !(pdim_lt Hi), !(pdim_lt Hj), !(pdim_lt Hd).
  rewrite !(pdim_lt Hr).
  change (pdim 1 i) with 0. change (pdim 1 j) with 0.
  change (pdim 1 d) with 0.
  unfold reshape_column, tmap. cbn [elem hd]. rewrite Ht.
  rewrite (nth_indices_vector Hk). reflexivity.
Qed.

(** X12.  Batches whose matrices have no node are rejected: on batches
    of shape [B; 0; 0; D] with one time value per sample,
    [sample_conditional_pt] fails with an index error (the interpolation
    is formed, and no mask can be read off its empty column axis). *)
Theorem sample_conditional_pt_no_nodes (draw : list nat -> Q)
    (x0 x1 t : tensor) (B D : nat) :
  shape x0 = [B; 0; 0; D] -> shape x1 = [B; 0; 0; D] -> shape t = [B] ->
  sample_conditional_pt MATRIX_PAD device_available self draw x0 x1 t
  = Err IndexError.
Proof.
  intros H0 H1 Ht.
  destruct (@sample_conditional_pt_steps draw x0 x1 t B 0 D B B H0 H1 Ht
              (bdim_same B)) as (mu & Hmu & _ & ->).
  unfold sample_be_matrix, select. rewrite Hmu. reflexivity.
Qed.

Hypothesis device_ok : device_available (device self) = true.

(** X13.  The sample lies on the straight line the vector field draws:
    in exact arithmetic, for batches of one rank-4 shape with at least
    one sample, finite entries and one finite time value per sample,
    the entry returned by [sample_conditional_pt] is the entry of [x0]
    plus the time value of the sample times the entry of
    [compute_conditional_vector_field(x0, x1)], plus the noise scale
    times a noise term that is symmetric in the node axes; with noise
    scale 0 it is exactly on the line. *)
Theorem sample_conditional_pt_along_field (draw : list nat -> Q)
    (x0 x1 t : tensor) (B n D : nat) :
  shape x0 = [B; n; n; D] -> shape x1 = [B; n; n; D] -> shape t = [B] ->
  0 < B -> 0 < n ->
  finite x0 = true -> finite x1 = true -> finite t = true ->
  exists out u (eps : nat -> nat -> nat -> nat -> Q),
    sample_conditional_pt MATRIX_PAD device_available self draw x0 x1 t
    = Ok out /\
    compute_conditional_vector_field x0 x1 = Ok u /\
    forall b i j d, b < B -> i < n -> j < n -> d < D ->
      feq (elem out [b; i; j; d])
          (fadd (fadd (elem x0 [b; i; j; d])
                      (fmul (elem t [b]) (elem u [b; i; j; d])))
                (Fin (eps b i j d * sigma self)%Q)) /\
      (eps b i j d == eps b j i d)%Q /\
      ((sigma self == 0)%Q ->
       feq (elem out [b; i; j; d])
           (fadd (elem x0 [b; i; j; d])
                 (fmul (elem t [b]) (elem u [b; i; j; d])))).
Proof.
  intros H0 H1 Ht HB Hn Hf0 Hf1 Hft.
  destruct (@sample_conditional_pt_entries MATRIX_PAD device_available
              self device_ok draw x0 x1 t B n D B B H0 H1 Ht
              (bdim_same B) HB Hn)
    as (out & eps & Hout & _ & He).
  unfold compute_conditional_vector_field, tsub.
  destruct (@binop_same fsub x1 x0 [B; n; n; D] H1 H0)
    as (u & Hu & _ & Hue).
  exists out, u, eps. split; [exact Hout|]. split; [exact Hu|].
  intros b i j d Hb Hi Hj Hd.
  pose proof (in_range4_intro Hb Hi Hj Hd) as Hin.
  destruct (He b i j d Hb Hi Hj Hd) as [E Hsym].
  rewrite E, (pdim_lt Hb), (Hue _ Hin).
  destruct (@finite_entry x0 [b; i; j; d] Hf0) as (a0 & ->);
    [now rewrite H0|].
  destruct (@finite_entry x1 [b; i; j; d] Hf1) as (a1 & ->);
    [now rewrite H1|].
  destruct (@finite_entry t [b] Hft) as (q & ->);
    [rewrite Ht; repeat constructor; exact Hb|].
  unfold feq. cbn [fadd fsub fmul fopp feqb]. split; [|split].
  - apply Qeq_bool_iff. ring.
  - exact Hsym.
  - intros Hsig. apply Qeq_bool_iff. rewrite Hsig. ring.
Qed.

(** X14.  The vector field leads from [x0] to [x1]: for batches of one
    shape with finite entries, adding
    [compute_conditional_vector_field(x0, x1)] to [x0] gives [x1] at
    every position. *)
Theorem vector_field_reaches_target (x0 x1 : tensor) :
  shape x0 = shape x1 -> finite x0 = true -> finite x1 = true ->
  exists u back,
    compute_conditional_vector_field x0 x1 = Ok u /\
    tadd x0 u = Ok back /\
    shape back = shape x1 /\
    forall idx, in_range (shape x1) idx ->
      feq (elem back idx) (elem x1 idx).
Proof.
  intros Hs Hf0 Hf1. unfold compute_conditional_vector_field, tsub, tadd.
  destruct (@binop_same fsub x1 x0 (shape x1) eq_refl Hs)
    as (u & Hu & Hus & Hue).
  destruct (@binop_same fadd x0 u (shape x1) Hs Hus)
    as (back & Hback & Hbs & Hbe).
  exists u, back. repeat (split; [assumption|]).
  intros idx Hin. rewrite (Hbe idx Hin), (Hue idx Hin).
  destruct (@finite_entry x0 idx Hf0) as (a0 & ->); [now rewrite Hs|].
  destruct (@finite_entry x1 idx Hf1 Hin) as (a1 & ->).
  unfold feq. cbn. apply Qeq_bool_iff. ring.
Qed.

End PathSamplerMore.

(* ================================================================== *)
(** ** The theorems at concrete inputs *)

Section Instances.
Import Samples.

Lemma zero_centered_noise_positions_witness :
  exists out,
    zero_centered_noise cpu_only matcher draw (shape mask_full_one)
      mask_full_one = Ok out /\
    shape out = shape mask_full_one /\
    feqb (Fin fill_value) (Fin 0%Q) = false /\
    forall b idx, in_range (shape mask_full_one) (b :: idx) ->
      (feq (elem mask_full_one (b :: idx)) (Fin 0%Q) ->
       elem out (b :: idx) = Fin fill_value) /\
      (feq (elem mask_full_one (b :: idx)) (Fin 1%Q) ->
       (0 < mask_count mask_full_one b)%Q /\
       exists q, elem out (b :: idx) = Fin q /\
         (q == draw (b :: idx)
               - masked_draw_total draw mask_full_one b
                 / mask_count mask_full_one b)%Q).
Proof.
  apply (@zero_centered_noise_positions cpu_only matcher eq_refl draw
           mask_full_one 2 [2; 2; 1]); [reflexivity | lia | reflexivity].
Defined.

Lemma zero_centered_noise_degenerate_witness :
  exists out x_batch,
    zero_centered_noise cpu_only matcher draw (shape mask_full_empty)
      mask_full_empty = Ok out /\
    shape out = shape mask_full_empty /\ finite out = true /\
    tmul (randn (shape mask_full_empty) draw) mask_full_empty
    = Ok x_batch /\
    forall b, b < 2 -> feq (sample_mask_sum mask_full_empty b) (Fin 0%Q) ->
      exists centered,
        zero_center_func (unbind0 b x_batch) (unbind0 b mask_full_empty)
        = Ok centered /\
        forall idx, in_range [2; 2; 1] idx ->
          elem centered idx = NaN /\
          elem out (b :: idx) = Fin fill_value.
Proof.
  apply (@zero_centered_noise_degenerate cpu_only matcher eq_refl draw
           mask_full_empty 2 [2; 2; 1]); [reflexivity | lia | reflexivity].
Defined.

(** The second sample of [mask_full_empty] has mask sum 0; nothing is
    raised: the zero-centering primitive returns NaN for it, the noise
    synthesis returns a finite tensor holding the fill constant there,
    and [sample_be_matrix] on a batch whose second sample is all padding
    returns as well. *)
Lemma degenerate_sample_counterexample :
  feqb (sample_mask_sum mask_full_empty 1) (Fin 0%Q) = true /\
  (x <- tmul (randn (shape mask_full_empty) draw) mask_full_empty ;;
   c <- zero_center_func (unbind0 1 x) (unbind0 1 mask_full_empty) ;;
   Ok (elem c [0; 0; 0])) = Ok NaN /\
  is_ok (zero_centered_noise cpu_only matcher draw
           (shape mask_full_empty) mask_full_empty) = true /\
  entry (zero_centered_noise cpu_only matcher draw
           (shape mask_full_empty) mask_full_empty) [1; 0; 0; 0]
  = Fin fill_value /\
  is_ok (sample_be_matrix pad cpu_only matcher draw batch_pad) = true.
Proof. repeat split; vm_compute; reflexivity. Qed.

Lemma sample_be_matrix_symmetric_witness :
  exists out,
    sample_be_matrix pad cpu_only matcher draw sym2 = Ok out /\
    shape out = shape sym2 /\
    symmetric out = true /\
    forall b i j d, b < 1 -> i < 2 -> j < 2 -> d < 1 ->
      feq (elem out [b; i; j; d]) (elem out [b; j; i; d]).
Proof.
  apply (@sample_be_matrix_symmetric pad cpu_only matcher eq_refl draw
           sym2 1 2 1); [reflexivity | lia | lia | reflexivity].
Defined.

(** On the matrix [skew2], which is not symmetric, the output is not
    symmetric either: its two off-diagonal entries differ by 3, as those
    of the input do. *)
Lemma sample_be_matrix_symmetric_counterexample :
  shape skew2 = [1; 2; 2; 1] /\
  is_ok (sample_be_matrix pad cpu_only matcher draw skew2) = true /\
  feqb (entry (sample_be_matrix pad cpu_only matcher draw skew2)
              [0; 0; 1; 0])
       (entry (sample_be_matrix pad cpu_only matcher draw skew2)
              [0; 1; 0; 0]) = false /\
  feqb (entry (sample_be_matrix pad cpu_only matcher draw skew2)
              [0; 0; 1; 0])
       (fadd (entry (sample_be_matrix pad cpu_only matcher draw skew2)
                    [0; 1; 0; 0])
             (Fin 3%Q)) = true.
Proof. repeat split; vm_compute; reflexivity. Qed.

Lemma sample_be_matrix_frame_witness :
  exists out (eps : nat -> nat -> nat -> nat -> Q),
    sample_be_matrix pad cpu_only matcher draw batch_a = Ok out /\
    shape out = shape batch_a /\
    forall b i j d, b < 2 -> i < 2 -> j < 2 -> d < 1 ->
      elem out [b; i; j; d]
      = fadd (elem batch_a [b; i; j; d])
             (Fin (eps b i j d * sigma matcher)%Q) /\
      (eps b i j d == eps b j i d)%Q /\
      (pair_valid pad batch_a b i j d = false ->
       (eps b i j d * sigma matcher == sigma matcher * fill_value)%Q) /\
      (~ (eps b i j d * sigma matcher == sigma matcher * fill_value)%Q ->
       pair_valid pad batch_a b i j d = true) /\
      (pair_valid pad batch_a b i j d = true ->
       (0 < valid_count pad batch_a b)%Q /\
       (eps b i j d
        == (1 # 2) * (draw [b; i; j; d] + draw [b; j; i; d])
           - valid_draw_total pad batch_a draw b
             / valid_count pad batch_a b)%Q).
Proof.
  apply (@sample_be_matrix_frame pad cpu_only matcher eq_refl draw
           batch_a 2 2 1); [reflexivity | lia | lia].
Defined.

Lemma sample_conditional_pt_endpoints_witness :
  (exists out,
     sample_conditional_pt pad cpu_only matcher0 draw batch_a batch_b
       t_zeros = Ok out /\
     shape out = shape batch_a /\
     forall idx, in_range (shape batch_a) idx ->
       feq (elem out idx) (elem batch_a idx)) /\
  (exists out,
     sample_conditional_pt pad cpu_only matcher0 draw batch_a batch_b
       t_ones = Ok out /\
     shape out = shape batch_b /\
     forall idx, in_range (shape batch_b) idx ->
       feq (elem out idx) (elem batch_b idx)).
Proof.
  split.
  - apply (proj1 (@sample_conditional_pt_endpoints pad cpu_only matcher0
             eq_refl draw batch_a batch_b t_zeros 2 2 1
             eq_refl eq_refl eq_refl (le_S 1 1 (le_n 1))
             (le_S 1 1 (le_n 1)) eq_refl eq_refl eq_refl)).
    reflexivity.
  - apply (proj2 (@sample_conditional_pt_endpoints pad cpu_only matcher0
             eq_refl draw batch_a batch_b t_ones 2 2 1
             eq_refl eq_refl eq_refl (le_S 1 1 (le_n 1))
             (le_S 1 1 (le_n 1)) eq_refl eq_refl eq_refl)).
    reflexivity.
Defined.

Lemma sample_conditional_pt_time_length_witness :
  exists out,
    sample_conditional_pt pad cpu_only matcher draw batch_a batch_b t_half
    = Ok out /\
    shape out = [2; 2; 2; 1].
Proof.
  destruct (@sample_conditional_pt_time_length pad cpu_only matcher eq_refl
              draw batch_a batch_b t_half 2 2 1 1
              eq_refl eq_refl eq_refl (le_S 1 1 (le_n 1)))
    as (_ & Hone & _).
  destruct (Hone eq_refl (le_S 1 1 (le_n 1))) as (out & _ & Hout & Hs & _).
  exists out. split; assumption.
Defined.

(** A time vector of one value against a batch of two samples is not
    rejected: the value is broadcast over the batch. *)
Lemma sample_conditional_pt_time_length_counterexample :
  shape t_half = [1] /\ shape batch_a = [2; 2; 2; 1] /\
  shape batch_b = [2; 2; 2; 1] /\
  is_ok (sample_conditional_pt pad cpu_only matcher draw batch_a batch_b
           t_half) = true /\
  shape_of (sample_conditional_pt pad cpu_only matcher draw batch_a
              batch_b t_half) = [2; 2; 2; 1].
Proof. repeat split; vm_compute; reflexivity. Qed.

Lemma vector_field_antisymmetric_witness :
  exists u v,
    compute_conditional_vector_field batch_a batch_b = Ok u /\
    compute_conditional_vector_field batch_b batch_a = Ok v /\
    shape u = shape batch_a /\ shape v = shape batch_a /\
    forall idx, in_range (shape batch_a) idx ->
      elem u idx = fsub (elem batch_b idx) (elem batch_a idx) /\
      feq (elem u idx) (elem (tneg v) idx).
Proof.
  apply (@vector_field_antisymmetric batch_a batch_b); reflexivity.
Defined.

(** A configuration with noise scale -1 and a device the runtime does
    not know is accepted by the constructor. *)
Lemma init_counterexample :
  (Config.sigma bad_config <= 0)%Q /\
  cpu_only (Config.device bad_config) = false /\
  is_ok (__init__ bad_config) = true.
Proof. repeat split. vm_compute. discriminate. Qed.

(** Half way between all zeros and all ones, without noise: 1/2 at every
    position. *)
Example sample_conditional_pt_half_way :
  forallb
    (fun idx =>
       feqb (entry (sample_conditional_pt pad cpu_only matcher0 draw
                      all_zero all_one t_half) idx)
            (Fin (1 # 2)%Q))
    (indices [1; 2; 2; 1]) = true.
Proof. vm_compute. reflexivity. Qed.

(** In [padded2] the second node is padding: the three positions that
    involve it receive the noise scale times the fill constant, the one
    valid position the centered draw (zero, being alone in its
    sample). *)
Example sample_be_matrix_padded_entries :
  forallb
    (fun p => feqb (fst p) (snd p))
    (combine
       (map (entry (sample_be_matrix pad cpu_only matcher draw padded2))
            (indices [1; 2; 2; 1]))
       [ Fin 1%Q;
         Fin (pad + fill_value * sigma matcher)%Q;
         Fin (pad + fill_value * sigma matcher)%Q;
         Fin (pad + fill_value * sigma matcher)%Q ]) = true.
Proof. vm_compute. reflexivity. Qed.

End Instances.

(* ================================================================== *)
(** ** The further properties at concrete inputs *)

Section MoreInstances.
Import Samples.

Lemma zero_center_func_idempotent_witness :
  exists out again,
    zero_center_func ones2 mask10 = Ok out /\
    zero_center_func out mask10 = Ok again /\
    shape again = shape ones2 /\
    forall idx, in_range (shape ones2) idx ->
      feq (elem again idx) (elem out idx).
Proof.
  apply (@zero_center_func_idempotent ones2 mask10); reflexivity.
Defined.

Lemma zero_center_func_empty_mask_witness :
  exists out, zero_center_func ones2 mask00 = Ok out /\
    shape out = shape ones2 /\
    forall idx, in_range (shape ones2) idx -> elem out idx = NaN.
Proof.
  apply (@zero_center_func_empty_mask ones2 mask00); reflexivity.
Defined.

Lemma zero_centered_noise_zero_mean_witness :
  exists out,
    zero_centered_noise cpu_only matcher draw (shape mask_full_empty)
      mask_full_empty = Ok out /\
    forall b, b < 2 ->
      exists q, masked_total (unbind0 b mask_full_empty) (unbind0 b out)
                = Ok (Fin q) /\ (q == 0)%Q.
Proof.
  apply (@zero_centered_noise_zero_mean cpu_only matcher eq_refl draw
           mask_full_empty 2 [2; 2; 1]); [reflexivity | lia | reflexivity].
Defined.

Lemma zero_centered_noise_shift_invariant_witness :
  exists out out',
    zero_centered_noise cpu_only matcher draw (shape mask_full_one)
      mask_full_one = Ok out /\
    zero_centered_noise cpu_only matcher
      (fun idx => Qplus (draw idx) (level (hd 0 idx))) (shape mask_full_one)
      mask_full_one = Ok out' /\
    forall b idx, in_range (shape mask_full_one) (b :: idx) ->
      feq (elem out' (b :: idx)) (elem out (b :: idx)).
Proof.
  apply (@zero_centered_noise_shift_invariant cpu_only matcher eq_refl draw
           level mask_full_one 2 [2; 2; 1]);
    [reflexivity | lia | reflexivity].
Defined.

Lemma zero_centered_noise_sample_local_witness :
  exists out out',
    zero_centered_noise cpu_only matcher draw (shape mask_full_empty)
      mask_full_empty = Ok out /\
    zero_centered_noise cpu_only matcher draw_first (shape mask_full_one)
      mask_full_one = Ok out' /\
    forall idx, in_range [2; 2; 1] idx ->
      elem out (0 :: idx) = elem out' (0 :: idx).
Proof.
  apply (@zero_centered_noise_sample_local cpu_only matcher eq_refl draw
           draw_first mask_full_empty mask_full_one 2 0 [2; 2; 1]);
    [reflexivity | reflexivity | lia |].
  intros idx _. split; reflexivity.
Defined.

Lemma sample_be_matrix_index_error_witness :
  sample_be_matrix pad cpu_only matcher draw flat2 = Err IndexError.
Proof.
  apply (@sample_be_matrix_index_error pad cpu_only matcher draw flat2).
  left. reflexivity.
Defined.

Lemma sample_be_matrix_unknown_device_witness :
  sample_be_matrix pad cpu_only matcher_tpu draw batch_a = Err DeviceError.
Proof.
  apply (@sample_be_matrix_unknown_device pad cpu_only matcher_tpu draw
           batch_a 2 2 1); [reflexivity | reflexivity | lia].
Defined.

Lemma sample_be_matrix_sigma_zero_witness :
  exists out,
    sample_be_matrix pad cpu_only matcher0 draw batch_a = Ok out /\
    shape out = shape batch_a /\
    forall idx, in_range (shape batch_a) idx ->
      feq (elem out idx) (elem batch_a idx).
Proof.
  apply (@sample_be_matrix_sigma_zero pad cpu_only matcher0 eq_refl draw
           batch_a 2 2 1);
    [reflexivity | lia | lia | reflexivity | reflexivity].
Defined.

Lemma sample_be_matrix_finite_witness :
  exists out,
    sample_be_matrix pad cpu_only matcher draw batch_pad = Ok out /\
    finite out = true.
Proof.
  apply (@sample_be_matrix_finite pad cpu_only matcher eq_refl draw
           batch_pad 2 2 1); [reflexivity | lia | lia | reflexivity].
Defined.

Lemma sample_be_matrix_noise_ignores_values_witness :
  exists out out' (eps : nat -> nat -> nat -> nat -> Q),
    sample_be_matrix pad cpu_only matcher draw batch_a = Ok out /\
    sample_be_matrix pad cpu_only matcher draw batch_b = Ok out' /\
    forall b i j d, b < 2 -> i < 2 -> j < 2 -> d < 1 ->
      elem out [b; i; j; d]
      = fadd (elem batch_a [b; i; j; d])
             (Fin (eps b i j d * sigma matcher)%Q) /\
      elem out' [b; i; j; d]
      = fadd (elem batch_b [b; i; j; d])
             (Fin (eps b i j d * sigma matcher)%Q).
Proof.
  apply (@sample_be_matrix_noise_ignores_values pad cpu_only matcher
           eq_refl draw batch_a batch_b 2 2 1);
    [reflexivity | reflexivity | lia | lia |].
  intros b i d Hb Hi Hd.
  destruct b as [|[|b]]; [| |lia];
    (destruct i as [|[|i]]; [| |lia]);
    (destruct d as [|d]; [|lia]); reflexivity.
Defined.

Lemma sample_be_matrix_preserves_valid_total_witness :
  exists out,
    sample_be_matrix pad cpu_only matcher draw batch_a = Ok out /\
    forall b, b < 2 ->
      (valid_total pad batch_a out b == valid_total pad batch_a batch_a b)%Q.
Proof.
  apply (@sample_be_matrix_preserves_valid_total pad cpu_only matcher
           eq_refl draw batch_a 2 2 1);
    [reflexivity | lia | lia | reflexivity].
Defined.

Lemma sample_conditional_pt_no_nodes_witness :
  sample_conditional_pt pad cpu_only matcher0 draw no_nodes no_nodes t_zeros
  = Err IndexError.
Proof.
  apply (@sample_conditional_pt_no_nodes pad cpu_only matcher0 draw
           no_nodes no_nodes t_zeros 2 0); reflexivity.
Defined.

Lemma sample_conditional_pt_along_field_witness :
  exists out u (eps : nat -> nat -> nat -> nat -> Q),
    sample_conditional_pt pad cpu_only matcher draw batch_a batch_b
      t_quarters = Ok out /\
    compute_conditional_vector_field batch_a batch_b = Ok u /\
    forall b i j d, b < 2 -> i < 2 -> j < 2 -> d < 1 ->
      feq (elem out [b; i; j; d])
          (fadd (fadd (elem batch_a [b; i; j; d])
                      (fmul (elem t_quarters [b]) (elem u [b; i; j; d])))
                (Fin (eps b i j d * sigma matcher)%Q)) /\
      (eps b i j d == eps b j i d)%Q /\
      ((sigma matcher == 0)%Q ->
       feq (elem out [b; i; j; d])
           (fadd (elem batch_a [b; i; j; d])
                 (fmul (elem t_quarters [b]) (elem u [b; i; j; d])))).
Proof.
  apply (@sample_conditional_pt_along_field pad cpu_only matcher eq_refl
           draw batch_a batch_b t_quarters 2 2 1);
    try reflexivity; lia.
Defined.

Lemma vector_field_reaches_target_witness :
  exists u back,
    compute_conditional_vector_field batch_a batch_b = Ok u /\
    tadd batch_a u = Ok back /\
    shape back = shape batch_b /\
    forall idx, in_range (shape batch_b) idx ->
      feq (elem back idx) (elem batch_b idx).
Proof.
  apply (@vector_field_reaches_target batch_a batch_b); reflexivity.
Defined.

(** The sums of X11 on [batch_a] with noise scale 1/2: the valid entries
    of the first sample add up to 8 before and after, those of the
    second sample (one valid pair, holding 0) to 0. *)
Example valid_total_batch_a :
  Qeq_bool (valid_total pad batch_a batch_a 0) 8 = true /\
  match sample_be_matrix pad cpu_only matcher draw batch_a with
  | Ok out => Qeq_bool (valid_total pad batch_a out 0) 8
              && Qeq_bool (valid_total pad batch_a out 1) 0
  | Err _ => false
  end = true.
Proof. split; vm_compute; reflexivity. Qed.

End MoreInstances.
